(** * fastsqs: the dispatch-and-middleware engine and the example code

  The repository ships the examples of the fastsqs package; the engine
  itself (pipeline, idempotency guard, retry policy, scheduler, batch
  aggregator, router) is imported from the package and is not part of
  the sources.  Those parts are modelled from the specification and are
  marked so; the example code that is present (the entity-lock registry
  of [ordering_with_standard_queues], the custom middleware hooks) is
  embedded from the source. *)

From stdpp Require Import base gmap strings list.
From Stdlib Require Import QArith Qminmax.
Open Scope nat_scope.

(** Outcome of a fallible Python call: a value or a raised exception. *)
Inductive result (A E : Type) : Type :=
| Ok (v : A)
| Err (e : E).
Arguments Ok {A E} v.
Arguments Err {A E} e.

(* ------------------------------------------------------------------ *)
(** ** Middleware pipeline (spec 4.2) *)

Module Pipeline.
Section Pipeline.
Variables Ctx Res Exn : Type.

(** The reply of an [error] hook: a substitute result that suppresses
    the failure, or an exception that keeps the unwinding going. *)
Inductive err_reply : Type :=
| Suppress (v : Res)
| Propagate (e : Exn).

(** A middleware instance with its three hooks.  Each hook receives
    the per-record context and returns it (the Python dict is mutated in
    place; here the updated context is threaded explicitly).  [before]
    may raise after having mutated the context. *)
Record middleware : Type := {
  before : Ctx -> Ctx * option Exn;
  after : Ctx -> Res -> Ctx * Res;
  error : Ctx -> Exn -> Ctx * err_reply
}.

(** The hook invocations, tagged with the registration index of the
    middleware they belong to. *)
Inductive event : Type :=
| EvBefore (i : nat)
| EvHandler
| EvAfter (i : nat)
| EvError (i : nat).

(** Modelled from the spec: the engine's [before] loop (the pipeline
    module of the fastsqs package is not in the sources).  Hooks run in
    registration order; the first one that raises stops the loop and
    reports its index. *)
Fixpoint run_before (i : nat) (ms : list middleware) (c : Ctx)
  : Ctx * list event * option (nat * Exn) :=
  match ms with
  | [] => (c, [], None)
  | m :: ms' =>
      let '(c1, r) := before m c in
      match r with
      | Some e => (c1, [EvBefore i], Some (i, e))
      | None =>
          let '(c2, log, st) := run_before (S i) ms' c1 in
          (c2, EvBefore i :: log, st)
      end
  end.

(** Modelled from the spec: the [after] loop over an (already
    reversed) list of indexed middleware; each hook receives the running
    result and returns the new one. *)
Fixpoint run_after (ims : list (nat * middleware)) (c : Ctx) (v : Res)
  : Ctx * list event * Res :=
  match ims with
  | [] => (c, [], v)
  | (i, m) :: rest =>
      let '(c1, v1) := after m c v in
      let '(c2, log, v2) := run_after rest c1 v1 in
      (c2, EvAfter i :: log, v2)
  end.

(** Modelled from the spec: unwinding through [error] hooks; a
    [Suppress] reply stops the unwinding with a success, a [Propagate]
    reply passes the (possibly new) exception to the next hook. *)
Fixpoint unwind (ims : list (nat * middleware)) (c : Ctx) (e : Exn)
  : Ctx * list event * result Res Exn :=
  match ims with
  | [] => (c, [], Err e)
  | (i, m) :: rest =>
      let '(c1, rep) := error m c e in
      match rep with
      | Suppress v => (c1, [EvError i], Ok v)
      | Propagate e1 =>
          let '(c2, log, r) := unwind rest c1 e1 in
          (c2, EvError i :: log, r)
      end
  end.

Definition indexed (ms : list middleware) : list (nat * middleware) :=
  combine (seq 0 (length ms)) ms.

(** Modelled from the spec: [execute(record, handler, context)]. *)
Definition execute (ms : list middleware)
    (handler : Ctx -> Ctx * result Res Exn) (c : Ctx)
  : Ctx * list event * result Res Exn :=
  let '(c1, lb, st) := run_before 0 ms c in
  match st with
  | Some (k, e) =>
      let '(c2, le, r) := unwind (rev (firstn k (indexed ms))) c1 e in
      (c2, lb ++ le, r)
  | None =>
      let '(c2, hr) := handler c1 in
      match hr with
      | Ok v =>
          let '(c3, la, v') := run_after (rev (indexed ms)) c2 v in
          (c3, lb ++ EvHandler :: la, Ok v')
      | Err e =>
          let '(c3, le, r) := unwind (rev (indexed ms)) c2 e in
          (c3, lb ++ EvHandler :: le, r)
      end
  end.

(** The running result through [after] hooks taken in the given order,
    as the spec words it: each hook receives the previous hook's result
    and may overwrite it. *)
Fixpoint after_chain (ms : list middleware) (c : Ctx) (v : Res) : Res :=
  match ms with
  | [] => v
  | m :: rest => let '(c1, v1) := after m c v in after_chain rest c1 v1
  end.

(** The hooks of a prefix of the unwinding that all propagate: the
    context and exception handed to the next hook, or [None] when one of
    them suppresses. *)
Fixpoint propagate_through (ims : list (nat * middleware)) (c : Ctx) (e : Exn)
  : option (Ctx * Exn) :=
  match ims with
  | [] => Some (c, e)
  | (_, m) :: rest =>
      match error m c e with
      | (c1, Propagate e1) => propagate_through rest c1 e1
      | (_, Suppress _) => None
      end
  end.
End Pipeline.
End Pipeline.
Arguments Pipeline.Suppress {Res Exn} v.
Arguments Pipeline.Propagate {Res Exn} e.
Arguments Pipeline.Build_middleware {Ctx Res Exn} before after error.
Arguments Pipeline.before {Ctx Res Exn} m.
Arguments Pipeline.after {Ctx Res Exn} m.
Arguments Pipeline.error {Ctx Res Exn} m.
Arguments Pipeline.run_before {Ctx Res Exn} i ms c.
Arguments Pipeline.run_after {Ctx Res Exn} ims c v.
Arguments Pipeline.unwind {Ctx Res Exn} ims c e.
Arguments Pipeline.indexed {Ctx Res Exn} ms.
Arguments Pipeline.execute {Ctx Res Exn} ms handler c.
Arguments Pipeline.after_chain {Ctx Res Exn} ms c v.
Arguments Pipeline.propagate_through {Ctx Res Exn} ims c e.

(* ------------------------------------------------------------------ *)
(** ** Per-entity locks (ordering_with_standard_queues/lambda_function.py) *)

Module EntityLocks.
(** The part of the Python heap [get_entity_lock] touches: the module
    global dict [entity_locks] (entity id to lock object) and the
    allocator of fresh objects; an object is identified by its
    allocation number. *)
Record heap : Type := mk_heap {
  entity_locks : gmap string nat;
  next_obj : nat
}.

(** [asyncio.Lock()]: a fresh object. *)
Definition new_lock (h : heap) : heap * nat :=
  (mk_heap (entity_locks h) (S (next_obj h)), next_obj h).

(** [get_entity_lock(entity_id)]:
      if entity_id not in entity_locks:
          entity_locks[entity_id] = asyncio.Lock()
      return entity_locks[entity_id]
    The coroutine has no [await], so it runs without interleaving.  The
    final subscript is a lookup that would raise [KeyError] on a miss
    ([None] here). *)
Definition get_entity_lock (entity_id : string) (h : heap) : heap * option nat :=
  let h1 :=
    match entity_locks h !! entity_id with
    | Some _ => h
    | None =>
        let '(h', l) := new_lock h in
        mk_heap (<[entity_id := l]> (entity_locks h')) (next_obj h')
    end in
  (h1, entity_locks h1 !! entity_id).

(** A sequence of calls (in the order the event loop runs them) and the
    objects they return. *)
Fixpoint run_calls (ids : list string) (h : heap) : heap * list (option nat) :=
  match ids with
  | [] => (h, [])
  | id :: rest =>
      let '(h1, l) := get_entity_lock id h in
      let '(h2, ls) := run_calls rest h1 in
      (h2, l :: ls)
  end.
End EntityLocks.

(* ------------------------------------------------------------------ *)
(** ** Records and the batch result aggregator (spec 3, 4.6) *)

Module Batch.
(** A generic record (spec 3). *)
Record sqs_record : Type := mk_record {
  messageId : string;
  body : string;
  attributes : gmap string string;
  groupKey : option string;
  dedupKey : option string
}.

Inductive outcome : Type := Success | Failure.

#[global] Instance outcome_eq_dec : EqDecision outcome.
Proof. solve_decision. Defined.

Record batch_result : Type := mk_result {
  per_record : gmap string outcome;
  failed_ids : list string
}.

Definition empty_result : batch_result := mk_result ∅ [].

(** Modelled from the spec: [record(outcome)] of the aggregator (the
    aggregator of the fastsqs package is not in the sources).  A failure
    adds the id to [failedIds] (an ordered set), a success removes it. *)
Definition record_outcome (br : batch_result) (id : string) (o : outcome)
  : batch_result :=
  match o with
  | Success =>
      mk_result (<[id := Success]> (per_record br))
                (filter (fun x => x <> id) (failed_ids br))
  | Failure =>
      mk_result (<[id := Failure]> (per_record br))
                (if decide (id ∈ failed_ids br) then failed_ids br
                 else failed_ids br ++ [id])
  end.

(** Modelled from the spec: [finalize() -> BatchResult]. *)
Definition finalize (br : batch_result) : batch_result := br.

Definition outcome_of {Res Exn : Type} (r : result Res Exn) : outcome :=
  match r with Ok _ => Success | Err _ => Failure end.

(** Modelled from the spec: the batch call.  [settled] lists the records
    in the order they settle (any order: the scheduler promises none);
    a per-record failure is caught and becomes a [Failure] outcome, the
    call itself returns a [batch_result]. *)
Definition run_batch {Res Exn : Type} (perRecord : sqs_record -> result Res Exn)
    (settled : list sqs_record) : batch_result :=
  finalize (fold_left (fun br r => record_outcome br (messageId r) (outcome_of (perRecord r)))
              settled empty_result).
End Batch.

(* ------------------------------------------------------------------ *)
(** ** Concurrency scheduler (spec 4.5, 5) *)

Module Scheduler.
(** Modelled from the spec: the scheduler's state, records by index. *)
Record sched : Type := mk_sched {
  pending : list nat;
  in_flight : list nat;
  settled : list nat
}.

Definition init (records : list nat) : sched := mk_sched records [] [].

(** Modelled from the spec: a record may start (any pending one, no
    order is promised) while fewer than [maxConcurrent] executions are in
    flight; any in-flight execution may settle at any time. *)
Inductive step (maxConcurrent : nat) : sched -> sched -> Prop :=
| step_start p1 r p2 fl done :
    length fl < maxConcurrent ->
    step maxConcurrent (mk_sched (p1 ++ r :: p2) fl done)
                       (mk_sched (p1 ++ p2) (r :: fl) done)
| step_settle p fl1 r fl2 done :
    step maxConcurrent (mk_sched p (fl1 ++ r :: fl2) done)
                       (mk_sched p (fl1 ++ fl2) (r :: done)).

Definition can_start (maxConcurrent : nat) (s : sched) : bool :=
  bool_decide (length (in_flight s) < maxConcurrent) && negb (bool_decide (pending s = [])).
End Scheduler.

(* ------------------------------------------------------------------ *)
(** ** Retry policy (spec 4.4) *)

Module Retry.
Local Open Scope Q_scope.

(** Modelled from the spec: the policy fields; exception kinds are
    named by strings. *)
Record retry_policy : Type := mk_policy {
  max_retries : nat;
  base_delay : Q;
  max_delay : option Q;
  exponential_backoff : bool;
  jitter : bool;
  retryable_kinds : list string
}.

Definition is_retryable (p : retry_policy) (kind : string) : bool :=
  match retryable_kinds p with
  | [] => true
  | ks => bool_decide (kind ∈ ks)
  end.

(** Modelled from the spec: [baseDelay * 2^attempt] or [baseDelay],
    clamped to [maxDelay] when set. *)
Definition computed_delay (p : retry_policy) (attempt : nat) : Q :=
  let d := if exponential_backoff p
           then base_delay p * inject_Z (2 ^ Z.of_nat attempt)
           else base_delay p in
  match max_delay p with
  | Some m => Qmin d m
  | None => d
  end.

(** The wait before the next attempt; [u] is the uniform random factor
    drawn for it. *)
Definition wait_delay (p : retry_policy) (attempt : nat) (u : Q) : Q :=
  if jitter p then computed_delay p attempt * u else computed_delay p attempt.

(** Modelled from the spec: the [withRetry] loop.  [op attempt] is the
    outcome of the operation at that attempt, [rand attempt] the random
    factor.  Returns the number of invocations, the waits and the final
    outcome.  [fuel] bounds the recursion; [with_retry] gives enough. *)
Fixpoint retry_loop {Res : Type} (p : retry_policy)
    (op : nat -> result Res string) (rand : nat -> Q) (fuel attempt : nat)
  : nat * list Q * result Res string :=
  match op attempt with
  | Ok v => (1%nat, [], Ok v)
  | Err kind =>
      if negb (is_retryable p kind) then (1%nat, [], Err kind)
      else if Nat.ltb attempt (max_retries p) then
        match fuel with
        | O => (1%nat, [], Err kind)
        | S fuel' =>
            let '(n, ds, r) := retry_loop p op rand fuel' (S attempt) in
            (S n, wait_delay p attempt (rand attempt) :: ds, r)
        end
      else (1%nat, [], Err kind)
  end.

Definition with_retry {Res : Type} (p : retry_policy)
    (op : nat -> result Res string) (rand : nat -> Q) : nat * list Q * result Res string :=
  retry_loop p op rand (max_retries p) 0.
End Retry.

(* ------------------------------------------------------------------ *)
(** ** Per-record context and idempotency guard (spec 3, 4.3) *)

(** Values held in the per-record context dict. *)
Inductive ctx_val : Type :=
| CBool (b : bool)
| CNum (n : Z)
| CStr (s : string).

Module Idempotency.
Section Guard.
Variables Res Exn : Type.

Record entry : Type := mk_entry {
  stored : Res;
  expires_at : Z
}.

Record guard_out : Type := mk_out {
  proceeded : bool;
  out_ctx : gmap string ctx_val;
  out_res : result Res Exn
}.

(** Modelled from the spec: [guard(record, context, proceed)] of the
    idempotency middleware (not in the sources), against the in-memory
    store.  A live entry short-circuits: [proceed] is not called, the
    stored result is returned and the context gets the flag
    [idempotency_hit] that the example handler reads.  Otherwise
    [proceed] runs; a success is stored until [now + ttl], a failure
    stores nothing. *)
Definition guard (ttl : Z) (store : gmap string entry) (now : Z) (key : string)
    (ctx : gmap string ctx_val)
    (proceed : gmap string ctx_val -> gmap string ctx_val * result Res Exn)
  : gmap string entry * guard_out :=
  let miss :=
    let '(c1, r) := proceed ctx in
    match r with
    | Ok v => (<[key := mk_entry v (now + ttl)]> store, mk_out true c1 (Ok v))
    | Err e => (store, mk_out true c1 (Err e))
    end in
  match store !! key with
  | Some en =>
      if bool_decide (now < expires_at en)%Z
      then (store, mk_out false (<["idempotency_hit" := CBool true]> ctx) (Ok (stored en)))
      else miss
  | None => miss
  end.

(** The two halves of [guard]: the store lookup, which finds a live
    entry or misses, and the completion of a miss once [proceed] has
    returned, which stores a success and nothing for a failure. *)
Definition guard_lookup (store : gmap string entry) (now : Z) (key : string) : option Res :=
  match store !! key with
  | Some en => if bool_decide (now < expires_at en)%Z then Some (stored en) else None
  | None => None
  end.

Definition guard_finish (ttl : Z) (store : gmap string entry) (now : Z) (key : string)
    (pr : gmap string ctx_val * result Res Exn) : gmap string entry * guard_out :=
  let '(c1, r) := pr in
  match r with
  | Ok v => (<[key := mk_entry v (now + ttl)]> store, mk_out true c1 (Ok v))
  | Err e => (store, mk_out true c1 (Err e))
  end.

(** One guarded call: arrival time, derived key, the record's context
    and the guarded handler body. *)
Record call : Type := mk_call {
  c_time : Z;
  c_key : string;
  c_ctx : gmap string ctx_val;
  c_proceed : gmap string ctx_val -> gmap string ctx_val * result Res Exn
}.

(** Calls processed one after the other against one shared store. *)
Fixpoint run_guards (ttl : Z) (store : gmap string entry) (calls : list call)
  : gmap string entry * list guard_out :=
  match calls with
  | [] => (store, [])
  | c :: rest =>
      let '(s1, o) := guard ttl store (c_time c) (c_key c) (c_ctx c) (c_proceed c) in
      let '(s2, os) := run_guards ttl s1 rest in
      (s2, o :: os)
  end.

(** Modelled from the spec (section 4.3, the racing policy it accepts
    for concurrent guards of one key within a batch): two guards whose
    lookups both happen before either of them stores.  Each one that
    misses runs its [proceed] and stores its own success, the last write
    winning. *)
Definition race2 (ttl : Z) (store : gmap string entry) (a b : call)
  : gmap string entry * list guard_out :=
  let la := guard_lookup store (c_time a) (c_key a) in
  let lb := guard_lookup store (c_time b) (c_key b) in
  let '(s1, oa) :=
    match la with
    | Some v => (store, mk_out false (<["idempotency_hit" := CBool true]> (c_ctx a)) (Ok v))
    | None => guard_finish ttl store (c_time a) (c_key a) (c_proceed a (c_ctx a))
    end in
  let '(s2, ob) :=
    match lb with
    | Some v => (s1, mk_out false (<["idempotency_hit" := CBool true]> (c_ctx b)) (Ok v))
    | None => guard_finish ttl s1 (c_time b) (c_key b) (c_proceed b (c_ctx b))
    end in
  (s2, [oa; ob]).
End Guard.
Arguments guard_lookup {Res} store now key.
Arguments guard_finish {Res Exn} ttl store now key pr.
Arguments race2 {Res Exn} ttl store a b.
Arguments mk_entry {Res} stored expires_at.
Arguments stored {Res} e.
Arguments expires_at {Res} e.
Arguments mk_out {Res Exn} proceeded out_ctx out_res.
Arguments proceeded {Res Exn} g.
Arguments out_ctx {Res Exn} g.
Arguments out_res {Res Exn} g.
Arguments guard {Res Exn} ttl store now key ctx proceed.
Arguments mk_call {Res Exn} c_time c_key c_ctx c_proceed.
Arguments c_time {Res Exn} c.
Arguments c_key {Res Exn} c.
Arguments c_ctx {Res Exn} c.
Arguments c_proceed {Res Exn} c.
Arguments run_guards {Res Exn} ttl store calls.
End Idempotency.

(* ------------------------------------------------------------------ *)
(** ** Per-record contexts over a batch (spec 3) *)

Module RecordContexts.
Import Pipeline Batch.
Section Run.
(** The state a hook can touch: the record's context dict and the
    external stores ([Ext]: idempotency store, entity locks, ...). *)
Variables Ext Res Exn : Type.
Abbreviation state := (gmap string ctx_val * Ext)%type.

(** Modelled from the spec: a fresh context per record, holding the
    message id the example handlers read with [ctx.get("messageId")]. *)
Definition fresh_ctx (r : sqs_record) : gmap string ctx_val :=
  {[ "messageId" := CStr (messageId r) ]}.

(** Modelled from the spec: each record runs the pipeline from a fresh
    context and the current external stores; its context is dropped
    once it settles, the external stores carry over. *)
Fixpoint run_records (ms : sqs_record -> list (middleware state Res Exn))
    (h : sqs_record -> state -> state * result Res Exn)
    (ext : Ext) (rs : list sqs_record) : Ext * list (result Res Exn) :=
  match rs with
  | [] => (ext, [])
  | r :: rest =>
      let '(st, _, res) := execute (ms r) (h r) (fresh_ctx r, ext) in
      let '(ext2, outs) := run_records ms h st.2 rest in
      (ext2, res :: outs)
  end.
End Run.
Arguments run_records {Ext Res Exn} ms h ext rs.

(** [CustomLoggingMiddleware.before]
    (custom_middleware_example/middleware/custom_logging.py):
      ctx["start_time"] = time.time()
      ctx["message_count"] = ctx.get("message_count", 0) + 1
    ([now] is the clock reading; the prints are dropped). *)
Definition ctx_get_num (ctx : gmap string ctx_val) (k : string) (d : Z) : Z :=
  match ctx !! k with Some (CNum n) => n | _ => d end.

Definition custom_logging_before (now : Z) (ctx : gmap string ctx_val)
  : gmap string ctx_val :=
  let ctx1 := <["start_time" := CNum now]> ctx in
  <["message_count" := CNum (ctx_get_num ctx1 "message_count" 0 + 1)]> ctx1.
End RecordContexts.

(* ------------------------------------------------------------------ *)
(** ** Inheritance-aware routing (spec 4.1) *)

Module Router.
(** The declared message classes with their proper ancestors in method
    resolution order (parent first), as Python's [__mro__] lists them. *)
Definition hierarchy := gmap string (list string).

Definition chain (hier : hierarchy) (t : string) : list string :=
  t :: default [] (hier !! t).

(** Ancestor distance of [ty] from [t]: its position in [t]'s chain. *)
Fixpoint index_of (x : string) (l : list string) : option nat :=
  match l with
  | [] => None
  | y :: l' => if String.eqb x y then Some 0 else S <$> index_of x l'
  end.

Definition distance (hier : hierarchy) (t ty : string) : option nat :=
  index_of ty (chain hier t).

(** Modelled from the spec: among the registrations (in registration
    order) whose type is an ancestor-or-self of the message's declared
    type, pick the one with the smallest distance, the first registered
    on a tie; with no candidate, the wildcard (if any). *)
Definition pick {H : Type} (hier : hierarchy) (t : string)
    (best : option (nat * H)) (reg : string * H) : option (nat * H) :=
  match distance hier t reg.1 with
  | None => best
  | Some d =>
      match best with
      | Some (d0, _) => if Nat.ltb d d0 then Some (d, reg.2) else best
      | None => Some (d, reg.2)
      end
  end.

Definition resolve {H : Type} (hier : hierarchy) (regs : list (string * H))
    (wildcard : option H) (t : string) : option H :=
  match fold_left (pick hier t) regs None with
  | Some (_, h) => Some h
  | None => wildcard
  end.

(** The spec's reading of the rule: walk the chain from the declared
    type upwards and take the first registered handler of the first type
    that has one. *)
Fixpoint first_registered {H : Type} (regs : list (string * H)) (ty : string) : option H :=
  match regs with
  | [] => None
  | (ty', h) :: rest => if String.eqb ty ty' then Some h else first_registered rest ty
  end.

Fixpoint nearest {H : Type} (regs : list (string * H)) (tys : list string) : option H :=
  match tys with
  | [] => None
  | ty :: rest =>
      match first_registered regs ty with
      | Some h => Some h
      | None => nearest regs rest
      end
  end.
End Router.

(* ------------------------------------------------------------------ *)
(** ** Python values of the example handlers *)

Module Py.
(** A parsed JSON payload value. *)
#[warnings="-register-all"]
Inductive json : Type :=
| JNull
| JBool (b : bool)
| JNum (q : Q)
| JStr (s : string)
| JList (l : list json)
| JObj (fields : list (string * json)).

(** A payload dict, and [payload.get(key)] ([None] on a missing key). *)
Abbreviation payload := (gmap string json).

Definition py_get (p : payload) (key : string) : json := default JNull (p !! key).

(** Python truthiness: [None], [False], zero, and empty strings, lists
    and dicts are false. *)
Definition truthy (v : json) : bool :=
  match v with
  | JNull => false
  | JBool b => b
  | JNum q => negb (Qeq_bool q 0)
  | JStr s => negb (String.eqb s "")
  | JList l => match l with [] => false | _ => true end
  | JObj l => match l with [] => false | _ => true end
  end.

(** A dict literal returned by a handler, keys in insertion order. *)
Abbreviation dict := (list (string * json)).

(** The exceptions the example code raises. *)
Inductive py_exn : Type :=
| ValueError (msg : string)
| KeyError (key : string)
| TypeError (msg : string)
| ZeroDivisionError.

(** [type(e).__name__]. *)
Definition exn_kind (e : py_exn) : string :=
  match e with
  | ValueError _ => "ValueError"
  | KeyError _ => "KeyError"
  | TypeError _ => "TypeError"
  | ZeroDivisionError => "ZeroDivisionError"
  end.

(** [str(e)]. *)
Definition exn_str (e : py_exn) : string :=
  match e with
  | ValueError m => m
  | KeyError k => String.append "'" (String.append k "'")
  | TypeError m => m
  | ZeroDivisionError => "division by zero"
  end.

(** [s.endswith(suffix)]. *)
Fixpoint endswith (s suffix : string) : bool :=
  String.eqb s suffix ||
  match s with
  | EmptyString => false
  | String _ s' => endswith s' suffix
  end.

(** Truthiness of a [str]. *)
Definition str_truthy (s : string) : bool := negb (String.eqb s "").
End Py.

(* ------------------------------------------------------------------ *)
(** ** Handlers that fail on purpose, and their retry policies
    (comprehensive_example, advanced_features_example) *)

Module FailingHandlers.
Import Py Retry.

(** [process_order] (comprehensive_example/lambda_function.py):
      if order_id and order_id.endswith("error"):
          raise ValueError(f"Simulated error for order {order_id}")
      return {"order_id": order_id, "status": "processed",
              "processed_at": "2024-01-01T00:00:00Z"}
    (the [asyncio.sleep] and the print are dropped). *)
Definition process_order (order_id : string) : result dict py_exn :=
  if str_truthy order_id && endswith order_id "error"
  then Err (ValueError (String.append "Simulated error for order " order_id))
  else Ok [("order_id", JStr order_id); ("status", JStr "processed");
           ("processed_at", JStr "2024-01-01T00:00:00Z")].

(** The example's [RetryConfig(max_retries=3, base_delay=1.0,
    max_delay=60.0, exponential_backoff=True, retry_exceptions=[ValueError,
    ConnectionError])]; [jitter] is left at the library's default, which
    the sources do not show, so it is a parameter. *)
Definition comprehensive_retry (jit : bool) : retry_policy :=
  mk_policy 3 1%Q (Some 60%Q) true jit ["ValueError"; "ConnectionError"].

(** An attempt of a handler as the retry loop sees it: its result, or the
    kind of the exception it raised. *)
Definition as_attempt {A : Type} (r : result A py_exn) : nat -> result A string :=
  fun _ => match r with Ok v => Ok v | Err e => Err (exn_kind e) end.


End FailingHandlers.

(* ------------------------------------------------------------------ *)
(** ** Lock keys of the ordering example's handlers *)

Module EntityEvents.
(** The entity an event of ordering_with_standard_queues belongs to. *)
Inductive entity_event : Type :=
| OrderEvent (order_id : string)
| PaymentEvent (account_id : string)
| UserEvent (user_id : string).

(** The key [handle_order_event], [handle_payment_event] and
    [handle_user_event] pass to [get_entity_lock]:
    f"order_{msg.order_id}", f"account_{msg.account_id}",
    f"user_{msg.user_id}". *)
Definition lock_key (e : entity_event) : string :=
  match e with
  | OrderEvent id => String.append "order_" id
  | PaymentEvent id => String.append "account_" id
  | UserEvent id => String.append "user_" id
  end.
End EntityEvents.

(* ------------------------------------------------------------------ *)
(** ** The custom middleware example app *)

Module CustomApp.
Import Pipeline RecordContexts Py.
Local Open Scope Z_scope.

(** The dict [ctx["metrics"]] of [MetricsMiddleware]. *)
Record metrics_dict : Type := mk_metrics {
  total_messages : Z;
  successful_messages : Z;
  failed_messages : Z;
  processing_times : list Z
}.

(** The per-record context: the flat keys, and the nested [metrics] dict
    kept apart ([None] when the key is absent). *)
Record app_ctx : Type := mk_ctx {
  vals : gmap string ctx_val;
  metrics : option metrics_dict
}.

(** The clock readings [time.time()] gives the hooks that store them. *)
Record clock : Type := mk_clock {
  t_logging_before : Z;
  t_metrics_before : Z;
  t_metrics_after : Z
}.

Abbreviation app_mw := (middleware app_ctx dict py_exn).

(** [CustomLoggingMiddleware] (middleware/custom_logging.py).  Its
    [after] only prints; it defines no [error] hook, and the base class's
    (not in the sources) is modelled from the spec's optional hook as one
    that lets the exception through. *)
Definition logging_mw (ck : clock) : app_mw :=
  Build_middleware
    (fun c => (mk_ctx (custom_logging_before (t_logging_before ck) (vals c)) (metrics c), None))
    (fun c v => (c, v))
    (fun c e => (c, Propagate e)).

(** A context value used in arithmetic: an [int] or a [bool] (a
    subclass of [int]); a [str] raises [TypeError] ([None]). *)
Definition py_number (v : ctx_val) : option Z :=
  match v with
  | CNum n => Some n
  | CBool b => Some (if b then 1 else 0)
  | CStr _ => None
  end.

(** [ErrorHandlingMiddleware] (middleware/error_handling.py):
      before: if not payload.get("action"):
                  raise ValueError("Missing required field: action")
              ctx["error_count"] = ctx.get("error_count", 0)
      error:  error_count = ctx.get("error_count", 0) + 1
              ctx["error_count"] = error_count
              return {"status": "error", "error": str(error)}
    [+ 1] on a stored [str] raises [TypeError]. *)
Definition error_handling_before (p : payload) (c : app_ctx) : app_ctx * option py_exn :=
  if negb (truthy (py_get p "action"))
  then (c, Some (ValueError "Missing required field: action"))
  else
    let v := default (CNum 0) (vals c !! "error_count") in
    (mk_ctx (<["error_count" := v]> (vals c)) (metrics c), None).

Definition error_handling_error (c : app_ctx) (e : py_exn) : app_ctx * err_reply dict py_exn :=
  match py_number (default (CNum 0) (vals c !! "error_count")) with
  | Some n =>
      (mk_ctx (<["error_count" := CNum (n + 1)]> (vals c)) (metrics c),
       Suppress [("status", JStr "error"); ("error", JStr (exn_str e))])
  | None => (c, Propagate (TypeError "can only concatenate str (not int) to str"))
  end.

Definition error_handling_mw (p : payload) : app_mw :=
  Build_middleware (error_handling_before p) (fun c v => (c, v)) error_handling_error.

(** [MetricsMiddleware] (middleware/metrics.py):
      before: if "metrics" not in ctx: ctx["metrics"] = {0, 0, 0, []}
              ctx["metrics"]["total_messages"] += 1
              ctx["start_time"] = time.time()
      error:  ctx["metrics"]["failed_messages"] += 1
              metrics = ctx.get("metrics", {})
              success_rate = metrics["successful_messages"]
                             / metrics["total_messages"] * 100
              (the average over [processing_times] is taken only when
              the list is non-empty); returns None. *)
Definition metrics_before (ck : clock) (c : app_ctx) : app_ctx * option py_exn :=
  let m := default (mk_metrics 0 0 0 []) (metrics c) in
  let m1 := mk_metrics (total_messages m + 1) (successful_messages m)
                       (failed_messages m) (processing_times m) in
  (mk_ctx (<["start_time" := CNum (t_metrics_before ck)]> (vals c)) (Some m1), None).

(**   after:  end_time = time.time()
              start_time = ctx.get("start_time", end_time)
              duration = end_time - start_time
              ctx["metrics"]["successful_messages"] += 1
              ctx["metrics"]["processing_times"].append(duration)
    with the exceptions it can raise: [KeyError] without a [metrics]
    entry, [TypeError] when [start_time] is not a number. *)
Definition metrics_after_py (ck : clock) (c : app_ctx) : result app_ctx py_exn :=
  let end_time := t_metrics_after ck in
  match py_number (default (CNum end_time) (vals c !! "start_time")) with
  | None => Err (TypeError "unsupported operand type(s) for -")
  | Some start_time =>
      match metrics c with
      | Some m =>
          Ok (mk_ctx (vals c)
                (Some (mk_metrics (total_messages m) (successful_messages m + 1)
                        (failed_messages m)
                        (processing_times m ++ [end_time - start_time]))))
      | None => Err (KeyError "metrics")
      end
  end.

(** The pipeline's [after] hooks have no failure path (the spec gives
    them none); the hook passes the context on unchanged when
    [metrics_after_py] would raise. *)
Definition metrics_after (ck : clock) (c : app_ctx) (v : dict) : app_ctx * dict :=
  match metrics_after_py ck c with Ok c' => (c', v) | Err _ => (c, v) end.

Definition metrics_error (c : app_ctx) (e : py_exn) : app_ctx * err_reply dict py_exn :=
  match metrics c with
  | None => (c, Propagate (KeyError "metrics"))
  | Some m =>
      let m1 := mk_metrics (total_messages m) (successful_messages m)
                           (failed_messages m + 1) (processing_times m) in
      let c1 := mk_ctx (vals c) (Some m1) in
      if Z.eqb (total_messages m1) 0 then (c1, Propagate ZeroDivisionError)
      else (c1, Propagate e)
  end.

Definition metrics_mw (ck : clock) : app_mw :=
  Build_middleware (metrics_before ck) (metrics_after ck) metrics_error.

(** [app.add_middleware] in registration order (lambda_function.py). *)
Definition app_middleware (p : payload) (ck : clock) : list app_mw :=
  [logging_mw ck; error_handling_mw p; metrics_mw ck].

(** The record's context when the pipeline starts. *)
Definition start_ctx (r : Batch.sqs_record) : app_ctx := mk_ctx (fresh_ctx r) None.

(** The app's handlers: [handle_user_login] and [handle_user_logout]
    return {"status": "success", "userId": payload.get("userId")};
    [handle_invalid_message] raises ValueError("This is a test error"). *)
Definition handle_user_login (p : payload) (c : app_ctx) : app_ctx * result dict py_exn :=
  (c, Ok [("status", JStr "success"); ("userId", py_get p "userId")]).

Definition handle_user_logout (p : payload) (c : app_ctx) : app_ctx * result dict py_exn :=
  (c, Ok [("status", JStr "success"); ("userId", py_get p "userId")]).

Definition handle_invalid_message (c : app_ctx) : app_ctx * result dict py_exn :=
  (c, Err (ValueError "This is a test error")).
End CustomApp.

(* ================================================================== *)
(** * Proofs *)

Module PipelineFacts.
Import Pipeline.
Section Facts.
Variables Ctx Res Exn : Type.
Abbreviation mw := (middleware Ctx Res Exn).

Lemma run_before_pass i (ms : list mw) c c1 lb :
  run_before i ms c = (c1, lb, None) -> lb = map EvBefore (seq i (length ms)).
Proof.
  revert i c c1 lb. induction ms as [|m ms IH]; intros i c c1 lb H; simpl in *.
  - by inversion H.
  - destruct (before m c) as [c' [e|]]; [discriminate|].
    destruct (run_before (S i) ms c') as [[c2 log] st] eqn:E.
    inversion H; subst. by rewrite (IH _ _ _ _ E).
Qed.

Lemma run_before_raise i (ms : list mw) c c1 lb k e :
  run_before i ms c = (c1, lb, Some (k, e)) ->
  i <= k < i + length ms /\ lb = map EvBefore (seq i (S (k - i))).
Proof.
  revert i c c1 lb. induction ms as [|m ms IH]; intros i c c1 lb H; simpl in *.
  - discriminate.
  - destruct (before m c) as [c' [e'|]].
    + inversion H; subst. split; [lia|]. by rewrite Nat.sub_diag.
    + destruct (run_before (S i) ms c') as [[c2 log] st] eqn:E.
      inversion H; subst.
      destruct (IH _ _ _ _ E) as [Hk ->]. split; [lia|].
      replace (k - i) with (S (k - S i)) by lia. reflexivity.
Qed.

Lemma run_after_trace (ims : list (nat * mw)) c v c' la v' :
  run_after ims c v = (c', la, v') ->
  la = map (fun p => EvAfter (fst p)) ims /\
  v' = after_chain (map snd ims) c v.
Proof.
  revert c v c' la v'. induction ims as [|[i m] ims IH]; intros c v c' la v' H;
    simpl in *.
  - by inversion H.
  - destruct (after m c v) as [c1 v1].
    destruct (run_after ims c1 v1) as [[c2 log] v2] eqn:E.
    inversion H; subst. destruct (IH _ _ _ _ _ E) as [-> ->]. done.
Qed.

Lemma unwind_trace (ims : list (nat * mw)) c e c' le r :
  unwind ims c e = (c', le, r) ->
  exists j, le = map (fun p => EvError (fst p)) (firstn j ims) /\
    match r with
    | Ok v => exists pre i m cx ex cy, ims = pre ++ (i, m) :: drop j ims /\
                length pre = j - 1 /\
                propagate_through pre c e = Some (cx, ex) /\
                error m cx ex = (cy, Suppress v)
    | Err e' => j = length ims /\ exists cx, propagate_through ims c e = Some (cx, e')
    end.
Proof.
  revert c e c' le r. induction ims as [|[i m] ims IH]; intros c e c' le r H;
    simpl in *.
  - inversion H; subst. exists 0. simpl. split; [done|]. split; [done|]. by eexists.
  - destruct (error m c e) as [c1 [v|e1]] eqn:Herr.
    + inversion H; subst. exists 1. simpl. split; [done|].
      exists [], i, m, c, e. eexists. simpl. rewrite drop_0. eauto.
    + destruct (unwind ims c1 e1) as [[c2 log] r2] eqn:E.
      inversion H; subst.
      destruct (IH _ _ _ _ _ E) as [j [-> Hr]].
      exists (S j). split; [done|].
      destruct r as [v|e'].
      * destruct Hr as (pre & i' & m' & cx & ex & cy & Hims & Hlen & Hp & He).
        exists ((i, m) :: pre), i', m', cx, ex, cy. simpl.
        rewrite Herr. split; [by rewrite <- Hims|].
        split; [|done].
        destruct j; simpl in *; [|lia].
        exfalso. destruct pre; simpl in *; [|lia].
        rewrite drop_0 in Hims. apply (f_equal length) in Hims. simpl in Hims. lia.
      * destruct Hr as [-> [cx Hp]]. split; [done|]. exists cx. simpl. done.
Qed.

Lemma map_fst_combine_seq i (ms : list mw) :
  map fst (combine (seq i (length ms)) ms) = seq i (length ms).
Proof.
  revert i. induction ms as [|m ms IH]; intros i; simpl; [done|]. by rewrite IH.
Qed.

Lemma map_snd_combine_seq i (ms : list mw) :
  map snd (combine (seq i (length ms)) ms) = ms.
Proof.
  revert i. induction ms as [|m ms IH]; intros i; simpl; [done|]. by rewrite IH.
Qed.

Lemma map_fst_indexed (ms : list mw) : map fst (indexed ms) = seq 0 (length ms).
Proof. apply map_fst_combine_seq. Qed.

Lemma map_snd_indexed (ms : list mw) : map snd (indexed ms) = ms.
Proof. apply map_snd_combine_seq. Qed.

Lemma map_fst_take_indexed k (ms : list mw) :
  k <= length ms -> map fst (firstn k (indexed ms)) = seq 0 k.
Proof.
  intros Hk. rewrite <- firstn_map, map_fst_indexed, take_seq.
  f_equal. lia.
Qed.

Lemma error_events j (L : list (nat * mw)) :
  map (fun p => EvError (fst p)) (firstn j L) = map EvError (firstn j (map fst L)).
Proof. rewrite firstn_map, map_map. reflexivity. Qed.

Lemma after_events (L : list (nat * mw)) :
  map (fun p => EvAfter (fst p)) L = map EvAfter (map fst L).
Proof. by rewrite map_map. Qed.
End Facts.
End PipelineFacts.

Module PipelineClaims.
Import Pipeline PipelineFacts.
Section Claims.
Variables Ctx Res Exn : Type.
Abbreviation mw := (middleware Ctx Res Exn).

(** C1: [before] hooks run in registration order.  When the hook of
    index [k] raises, the later [before] hooks and the handler do not
    run and only [error] hooks of the middleware registered before [k]
    run, in reverse registration order: all [k] of them when the record
    fails, and when an [error] hook suppresses, the hooks up to it (all
    earlier ones having propagated) and no further.  When every [before] hook
    passes and the handler succeeds, every [after] hook runs in reverse
    registration order and the result is the running result threaded
    through them. *)
Theorem execute_hook_order (ms : list mw) (h : Ctx -> Ctx * result Res Exn) (c : Ctx) :
  match run_before 0 ms c with
  | (c1, _, Some (k, e)) =>
      k < length ms /\
      exists j, (execute ms h c).1.2 =
        map EvBefore (seq 0 (S k)) ++ map EvError (firstn j (rev (seq 0 k))) /\
      match (execute ms h c).2 with
      | Ok v => exists pre i m cx ex cy,
          rev (firstn k (indexed ms)) = pre ++ (i, m) :: drop j (rev (firstn k (indexed ms))) /\
          length pre = j - 1 /\
          propagate_through pre c1 e = Some (cx, ex) /\
          error m cx ex = (cy, Suppress v)
      | Err e' => j = k /\
          exists cx, propagate_through (rev (firstn k (indexed ms))) c1 e = Some (cx, e')
      end
  | (c1, _, None) =>
      forall c2 v, h c1 = (c2, Ok v) ->
        (execute ms h c).1.2 =
          map EvBefore (seq 0 (length ms)) ++ EvHandler ::
            map EvAfter (rev (seq 0 (length ms))) /\
        (execute ms h c).2 = Ok (after_chain (rev ms) c2 v)
  end.
Proof.
  unfold execute.
  destruct (run_before 0 ms c) as [[c1 lb] st] eqn:Eb.
  destruct st as [[k e]|].
  - destruct (run_before_raise _ _ _ _ _ _ _ _ _ _ Eb) as [Hk ->].
    rewrite Nat.sub_0_r.
    destruct (unwind (rev (firstn k (indexed ms))) c1 e) as [[c2 le] r] eqn:Eu.
    destruct (unwind_trace _ _ _ _ _ _ _ _ _ Eu) as [j [-> Hr]].
    split; [lia|]. exists j. simpl. split.
    + f_equal. rewrite error_events, map_rev, map_fst_take_indexed; [done|lia].
    + destruct r as [v|e']; [done|].
      destruct Hr as [Hj Hp]. split; [|done].
      rewrite Hj, length_rev, length_firstn. unfold indexed.
      rewrite length_combine, length_seq. lia.
  - intros c2 v Hh. rewrite Hh.
    rewrite (run_before_pass _ _ _ _ _ _ _ _ Eb).
    destruct (run_after (rev (indexed ms)) c2 v) as [[c3 la] v'] eqn:Ea.
    destruct (run_after_trace _ _ _ _ _ _ _ _ _ Ea) as [-> ->].
    simpl. split.
    + rewrite after_events, map_rev, map_fst_indexed. done.
    + by rewrite map_rev, map_snd_indexed.
Qed.

(** C7: when the handler raises, [error] hooks run in reverse
    registration order.  If the pipeline succeeds with [v], the last hook
    that ran returned the substitute [v] after all hooks before it
    propagated (the unwinding stopped there); if it fails, all hooks ran
    and all of them propagated. *)
Theorem execute_handler_failure (ms : list mw) (h : Ctx -> Ctx * result Res Exn)
    (c c1 c2 : Ctx) (lb : list event) (e : Exn) :
  run_before 0 ms c = (c1, lb, None) ->
  h c1 = (c2, Err e) ->
  exists j,
    (execute ms h c).1.2 =
      map EvBefore (seq 0 (length ms)) ++ EvHandler ::
        map EvError (firstn j (rev (seq 0 (length ms)))) /\
    match (execute ms h c).2 with
    | Ok v => exists pre i m cx ex cy,
        rev (indexed ms) = pre ++ (i, m) :: drop j (rev (indexed ms)) /\
        length pre = j - 1 /\
        propagate_through pre c2 e = Some (cx, ex) /\
        error m cx ex = (cy, Suppress v)
    | Err e' => j = length ms /\
        exists cx, propagate_through (rev (indexed ms)) c2 e = Some (cx, e')
    end.
Proof.
  intros Eb Hh. unfold execute. rewrite Eb, Hh.
  rewrite (run_before_pass _ _ _ _ _ _ _ _ Eb).
  destruct (unwind (rev (indexed ms)) c2 e) as [[c3 le] r] eqn:Eu.
  destruct (unwind_trace _ _ _ _ _ _ _ _ _ Eu) as [j [-> Hr]].
  exists j. simpl. split.
  - rewrite error_events, map_rev, map_fst_indexed. done.
  - destruct r as [v|e']; [done|].
    destruct Hr as [Hj Hp]. split; [|done].
    rewrite Hj, length_rev. unfold indexed.
    rewrite length_combine, length_seq. lia.
Qed.
End Claims.
End PipelineClaims.

Module EntityLockFacts.
Import EntityLocks.

Lemma get_entity_lock_hit id h l :
  entity_locks h !! id = Some l -> get_entity_lock id h = (h, Some l).
Proof. intros H. unfold get_entity_lock. by rewrite H, H. Qed.

Lemma get_entity_lock_grows id h h' r :
  get_entity_lock id h = (h', r) ->
  entity_locks h ⊆ entity_locks h' /\ r = entity_locks h' !! id /\ is_Some r.
Proof.
  unfold get_entity_lock. intros E.
  destruct (entity_locks h !! id) as [l|] eqn:Hl; inversion E; subst; simpl.
  - split; [done|]. split; [done|]. by rewrite Hl.
  - split; [by apply insert_subseteq|]. split; [done|].
    by rewrite lookup_insert_eq.
Qed.

Lemma run_calls_app ids1 ids2 h :
  run_calls (ids1 ++ ids2) h =
  (let '(h1, o1) := run_calls ids1 h in
   let '(h2, o2) := run_calls ids2 h1 in (h2, o1 ++ o2)).
Proof.
  revert h. induction ids1 as [|id ids1 IH]; intros h; cbn [run_calls app].
  - by destruct (run_calls ids2 h).
  - destruct (get_entity_lock id h) as [h1 l]. rewrite IH.
    destruct (run_calls ids1 h1) as [h2 o1].
    by destruct (run_calls ids2 h2).
Qed.

Lemma run_calls_grows ids h : entity_locks h ⊆ entity_locks (run_calls ids h).1.
Proof.
  revert h. induction ids as [|id ids IH]; intros h; cbn [run_calls app]; [done|].
  destruct (get_entity_lock id h) as [h1 l] eqn:E.
  destruct (run_calls ids h1) as [h2 ls] eqn:E2. simpl.
  destruct (get_entity_lock_grows _ _ _ _ E) as [Hs _].
  transitivity (entity_locks h1); [done|]. specialize (IH h1). by rewrite E2 in IH.
Qed.

Lemma run_calls_length ids h : length (run_calls ids h).2 = length ids.
Proof.
  revert h. induction ids as [|id ids IH]; intros h; cbn [run_calls app]; [done|].
  destruct (get_entity_lock id h) as [h1 l].
  specialize (IH h1). destruct (run_calls ids h1). simpl. by f_equal.
Qed.

(** C10: two calls of [get_entity_lock] with the same id, with any calls
    in between, return the same lock object; and the dict [entity_locks]
    only grows: whatever is in it before a run of calls is still there,
    with the same lock, after it. *)
Theorem get_entity_lock_idempotent_and_grows (h : heap) (pre mid post : list string)
    (id : string) :
  (exists l,
     (run_calls (pre ++ id :: mid ++ id :: post) h).2 !! length pre = Some (Some l) /\
     (run_calls (pre ++ id :: mid ++ id :: post) h).2 !! S (length pre + length mid)
       = Some (Some l)) /\
  (forall ids1 ids2,
     entity_locks (run_calls ids1 h).1 ⊆ entity_locks (run_calls (ids1 ++ ids2) h).1).
Proof.
  split.
  - rewrite run_calls_app.
    destruct (run_calls pre h) as [h1 o1] eqn:E1.
    pose proof (run_calls_length pre h) as Hlen. rewrite E1 in Hlen. simpl in Hlen.
    cbn [run_calls app]. destruct (get_entity_lock id h1) as [h2 r] eqn:E2.
    destruct (get_entity_lock_grows _ _ _ _ E2) as (_ & Hr & [l Hl]). subst r.
    rewrite run_calls_app.
    destruct (run_calls mid h2) as [h3 o3] eqn:E3.
    pose proof (run_calls_length mid h2) as Hlen3. rewrite E3 in Hlen3. simpl in Hlen3.
    pose proof (run_calls_grows mid h2) as Hg. rewrite E3 in Hg. simpl in Hg.
    assert (Hl3 : entity_locks h3 !! id = Some l) by (eapply lookup_weaken; eauto).
    cbn [run_calls app]. rewrite (get_entity_lock_hit _ _ _ Hl3).
    destruct (run_calls post h3) as [h4 o4].
    exists l. cbn [snd]. split.
    + rewrite lookup_app_r by lia. rewrite Hlen, Nat.sub_diag. simpl. by rewrite Hl.
    + rewrite lookup_app_r by lia.
      replace (S (length pre + length mid) - length o1) with (S (length o3)) by lia.
      simpl. rewrite lookup_app_r by lia. by rewrite Nat.sub_diag.
  - intros ids1 ids2. rewrite run_calls_app.
    destruct (run_calls ids1 h) as [h1 o1]. simpl.
    pose proof (run_calls_grows ids2 h1) as Hg.
    destruct (run_calls ids2 h1). exact Hg.
Qed.
End EntityLockFacts.

Module BatchFacts.
Import Batch.

(** The aggregator's invariant: [failedIds] has no duplicate and holds
    exactly the ids whose recorded outcome is a failure. *)
Definition agg_inv (br : batch_result) : Prop :=
  NoDup (failed_ids br) /\
  forall id, id ∈ failed_ids br <-> per_record br !! id = Some Failure.

Lemma agg_inv_empty : agg_inv empty_result.
Proof.
  split; [constructor|]. intros id. simpl. rewrite lookup_empty.
  split; [intros H; inversion H|discriminate].
Qed.

Lemma record_outcome_inv br id o :
  agg_inv br -> agg_inv (record_outcome br id o).
Proof.
  intros [Hnd Hmem]. unfold agg_inv. destruct o; simpl.
  - split; [by apply NoDup_filter|].
    intros id'. rewrite list_elem_of_filter, Hmem.
    destruct (decide (id = id')) as [->|Hne].
    + rewrite lookup_insert_eq. split; [intros [? _]; done|discriminate].
    + rewrite lookup_insert_ne by done. split; [intros [_ H]; done|].
      intros H; split; [congruence|done].
  - split.
    + destruct (decide (id ∈ failed_ids br)); [done|].
      apply NoDup_app. split; [done|]. split; [|by constructor; [set_solver|constructor]].
      intros x Hx Hx'. apply list_elem_of_singleton in Hx'. subst. done.
    + intros id'. destruct (decide (id = id')) as [->|Hne].
      * rewrite lookup_insert_eq. split; [done|intros _].
        destruct (decide (id' ∈ failed_ids br)); [done|].
        apply elem_of_app. right. by apply list_elem_of_singleton.
      * rewrite lookup_insert_ne by done. rewrite <- Hmem.
        destruct (decide (id ∈ failed_ids br)); [done|].
        rewrite elem_of_app, list_elem_of_singleton. naive_solver.
Qed.

Lemma record_outcome_dom br id o id' :
  is_Some (per_record (record_outcome br id o) !! id') <->
  id' = id \/ is_Some (per_record br !! id').
Proof.
  destruct o; simpl; destruct (decide (id = id')) as [->|Hne];
    rewrite ?lookup_insert_eq, ?lookup_insert_ne by done; naive_solver.
Qed.

Section Fold.
Context {Res Exn : Type} (perRecord : sqs_record -> result Res Exn).

Definition settle (br : batch_result) (r : sqs_record) : batch_result :=
  record_outcome br (messageId r) (outcome_of (perRecord r)).

Lemma settle_all_inv rs br : agg_inv br -> agg_inv (fold_left settle rs br).
Proof.
  revert br. induction rs as [|r rs IH]; intros br H; simpl; [done|].
  apply IH. by apply record_outcome_inv.
Qed.

Lemma settle_all_dom rs br id :
  is_Some (per_record (fold_left settle rs br) !! id) <->
  id ∈ map messageId rs \/ is_Some (per_record br !! id).
Proof.
  revert br. induction rs as [|r rs IH]; intros br; simpl.
  - split; [by right|]. intros [H|H]; [inversion H|done].
  - rewrite IH. unfold settle. rewrite record_outcome_dom.
    rewrite elem_of_cons. naive_solver.
Qed.

Lemma settle_lookup_other br r id :
  id <> messageId r -> per_record (settle br r) !! id = per_record br !! id.
Proof.
  intros Hne. unfold settle, record_outcome.
  destruct (outcome_of (perRecord r)); simpl; by rewrite lookup_insert_ne.
Qed.

Lemma settle_all_lookup_other rs br id :
  id ∉ map messageId rs ->
  per_record (fold_left settle rs br) !! id = per_record br !! id.
Proof.
  revert br. induction rs as [|r rs IH]; intros br Hn; simpl; [done|].
  simpl in Hn. rewrite elem_of_cons in Hn.
  rewrite IH by naive_solver. apply settle_lookup_other. naive_solver.
Qed.

Lemma settle_all_lookup rs br r :
  r ∈ rs -> NoDup (map messageId rs) ->
  per_record (fold_left settle rs br) !! messageId r = Some (outcome_of (perRecord r)).
Proof.
  revert br. induction rs as [|r0 rs IH]; intros br Hin Hnd; simpl.
  - by apply elem_of_nil in Hin.
  - simpl in Hnd. apply NoDup_cons in Hnd as [Hn0 Hnd].
    apply elem_of_cons in Hin as [->|Hin].
    + rewrite settle_all_lookup_other by done.
      unfold settle, record_outcome.
      destruct (outcome_of (perRecord r0)); simpl; by rewrite lookup_insert_eq.
    + by apply IH.
Qed.
End Fold.

(** With distinct record ids, a record whose step fails has its id in
    [failedIds]. *)
Lemma run_batch_last_outcome {Res Exn : Type} (perRecord : sqs_record -> result Res Exn)
    (records : list sqs_record) (r : sqs_record) :
  r ∈ records -> NoDup (map messageId records) ->
  outcome_of (perRecord r) = Failure ->
  messageId r ∈ failed_ids (run_batch perRecord records).
Proof.
  intros Hin Hnd Hf.
  destruct (settle_all_inv perRecord records empty_result agg_inv_empty) as [_ Hmem].
  unfold run_batch, finalize.
  change (fun br r => record_outcome br (messageId r) (outcome_of (perRecord r)))
    with (settle perRecord).
  apply Hmem. rewrite settle_all_lookup by done. by rewrite Hf.
Qed.

(** C3: whatever the order in which the records settle, the batch call
    returns a result in which every input record id has exactly one
    recorded outcome (the map [per_record] has an entry for it and for
    nothing else), [failedIds] holds exactly the ids recorded as
    failures, without duplicates, every one of them an input id, and
    there are at most as many as records. *)
Theorem run_batch_partition {Res Exn : Type} (perRecord : sqs_record -> result Res Exn)
    (records settled : list sqs_record) :
  settled ≡ₚ records ->
  let br := run_batch perRecord settled in
  (forall id, is_Some (per_record br !! id) <-> id ∈ map messageId records) /\
  (forall id, id ∈ failed_ids br <-> per_record br !! id = Some Failure) /\
  (forall id, per_record br !! id = Some Success -> id ∉ failed_ids br) /\
  NoDup (failed_ids br) /\
  (forall id, id ∈ failed_ids br -> id ∈ map messageId records) /\
  length (failed_ids br) <= length records.
Proof.
  intros Hperm br.
  assert (Hinv : agg_inv br) by (apply settle_all_inv, agg_inv_empty).
  assert (Hdom : forall id, is_Some (per_record br !! id) <-> id ∈ map messageId records).
  { intros id. unfold br, run_batch, finalize.
    change (fun br r => record_outcome br (messageId r) (outcome_of (perRecord r)))
      with (settle perRecord).
    rewrite settle_all_dom. simpl. rewrite lookup_empty.
    rewrite (Permutation_map messageId Hperm).
    split; [intros [H|[? H]]; [done|discriminate]|by left]. }
  destruct Hinv as [Hnd Hmem].
  assert (Hsub : forall id, id ∈ failed_ids br -> id ∈ map messageId records).
  { intros id Hid. apply Hdom. apply Hmem in Hid. by eexists. }
  split; [done|]. split; [done|].
  split. { intros id Hs Hf. apply Hmem in Hf. congruence. }
  split; [done|]. split; [done|].
  rewrite <- (length_map messageId records).
  apply NoDup_incl_length; [by apply NoDup_ListNoDup|].
  intros x Hx. apply list_elem_of_In, Hsub, list_elem_of_In. done.
Qed.
End BatchFacts.

Module SchedulerFacts.
Import Scheduler.

Lemma step_preserves_bound maxConcurrent s s' :
  step maxConcurrent s s' ->
  length (in_flight s) <= maxConcurrent -> length (in_flight s') <= maxConcurrent.
Proof.
  intros Hs. inversion Hs; subst; simpl; intros Hb.
  - lia.
  - rewrite length_app in *. simpl in Hb. lia.
Qed.

(** C4: in every state reachable from the start of a batch, the number
    of in-flight executions is at most [maxConcurrent]. *)
Theorem in_flight_bounded (maxConcurrent : nat) (records : list nat) (s : sched) :
  rtc (step maxConcurrent) (init records) s ->
  length (in_flight s) <= maxConcurrent.
Proof.
  intros Hr. cut (length (in_flight (init records)) <= maxConcurrent);
    [|simpl; lia].
  induction Hr as [x|x y z Hxy Hyz IH]; intros H; [done|].
  apply IH. by eapply step_preserves_bound.
Qed.
End SchedulerFacts.

Module RetryFacts.
Import Retry.
Local Open Scope Q_scope.

Lemma retry_loop_exhausts {Res : Type} (p : retry_policy)
    (op : nat -> result Res string) (rand : nat -> Q) :
  (forall a, exists kind, op a = Err kind /\ is_retryable p kind = true) ->
  forall fuel attempt, (attempt + fuel = max_retries p)%nat ->
    (retry_loop p op rand fuel attempt).1.1 = S fuel /\
    (retry_loop p op rand fuel attempt).1.2 =
      map (fun a => wait_delay p a (rand a)) (seq attempt fuel) /\
    exists kind, (retry_loop p op rand fuel attempt).2 = Err kind.
Proof.
  intros Hop. induction fuel as [|fuel IH]; intros attempt Ha; simpl;
    destruct (Hop attempt) as [kind [-> Hk]]; rewrite Hk; simpl.
  - replace (attempt <? max_retries p)%nat with false
      by (symmetry; apply Nat.ltb_ge; lia).
    eauto.
  - replace (attempt <? max_retries p)%nat with true
      by (symmetry; apply Nat.ltb_lt; lia).
    destruct (IH (S attempt) ltac:(lia)) as (H1 & H2 & H3).
    destruct (retry_loop p op rand fuel (S attempt)) as [[n ds] r].
    simpl in *. subst. eauto.
Qed.

(** C5: under a policy with [maxRetries = 3], an operation that raises a
    retryable exception at every attempt is invoked exactly 4 times and
    the failure is surfaced; a batch whose per-record step is that
    [withRetry] call (record ids distinct, as broker message ids are)
    reports the record id in [failedIds]. *)
Theorem with_retry_four_attempts {Res : Type} (p : retry_policy)
    (ops : Batch.sqs_record -> nat -> result Res string) (rand : nat -> Q)
    (records : list Batch.sqs_record) (r : Batch.sqs_record) :
  max_retries p = 3%nat ->
  (forall a, exists kind, ops r a = Err kind /\ is_retryable p kind = true) ->
  (with_retry p (ops r) rand).1.1 = 4%nat /\
  (exists kind, (with_retry p (ops r) rand).2 = Err kind) /\
  (r ∈ records -> NoDup (map Batch.messageId records) ->
   Batch.messageId r ∈
     Batch.failed_ids (Batch.run_batch (fun r' => (with_retry p (ops r') rand).2) records)).
Proof.
  intros Hmax Hop.
  destruct (retry_loop_exhausts p (ops r) rand Hop (max_retries p) 0 ltac:(lia))
    as (H1 & _ & [kind Hk]).
  unfold with_retry. split; [by rewrite H1, Hmax|]. split; [by exists kind|].
  intros Hin Hnd.
  apply (BatchFacts.run_batch_last_outcome _ records r); [done|done|].
  unfold with_retry. by rewrite Hk.
Qed.

(** C9: with [baseDelay = 1] and exponential backoff, the delay computed
    for attempt [a] is [2^a], clamped to [maxDelay] when a (non-negative)
    cap is set; without jitter that is the wait, with jitter the wait
    lies in [[0, computed delay]] for a random factor in [[0, 1]]. *)
Theorem backoff_delays (p : retry_policy) (a : nat) (u : Q) :
  base_delay p == 1 ->
  exponential_backoff p = true ->
  (forall m, max_delay p = Some m -> 0 <= m) ->
  computed_delay p a ==
    (match max_delay p with
     | Some m => Qmin (inject_Z (2 ^ Z.of_nat a)) m
     | None => inject_Z (2 ^ Z.of_nat a)
     end) /\
  (jitter p = false -> wait_delay p a u == computed_delay p a) /\
  (jitter p = true -> 0 <= u <= 1 ->
     0 <= wait_delay p a u /\ wait_delay p a u <= computed_delay p a).
Proof.
  intros Hb He Hm.
  assert (Hc : computed_delay p a ==
    (match max_delay p with
     | Some m => Qmin (inject_Z (2 ^ Z.of_nat a)) m
     | None => inject_Z (2 ^ Z.of_nat a)
     end)).
  { unfold computed_delay. rewrite He.
    destruct (max_delay p) as [m|]; rewrite Hb, Qmult_1_l; reflexivity. }
  assert (Hpos : 0 <= computed_delay p a).
  { rewrite Hc.
    assert (H2 : 0 <= inject_Z (2 ^ Z.of_nat a)).
    { change 0 with (inject_Z 0). rewrite <- Zle_Qle.
      apply Z.pow_nonneg. lia. }
    destruct (max_delay p) as [m|] eqn:Em; [|done].
    apply Q.min_glb; [done|]. by apply Hm. }
  split; [done|]. split.
  - intros Hj. unfold wait_delay. rewrite Hj. reflexivity.
  - intros Hj [Hu0 Hu1]. unfold wait_delay. rewrite Hj. split.
    + by apply Qmult_le_0_compat.
    + rewrite <- (Qmult_1_r (computed_delay p a)) at 2.
      apply Qmult_le_compat_nonneg; split; try done. apply Qle_refl.
Qed.
End RetryFacts.

Module IdempotencyFacts.
Import Idempotency.
Section Facts.
Variables Res Exn : Type.
Abbreviation call := (Idempotency.call Res Exn).

Lemma run_guards_app ttl store (l1 l2 : list call) :
  run_guards ttl store (l1 ++ l2) =
  (let '(s1, o1) := run_guards ttl store l1 in
   let '(s2, o2) := run_guards ttl s1 l2 in (s2, o1 ++ o2)).
Proof.
  revert store. induction l1 as [|c l1 IH]; intros store; cbn [run_guards app].
  - by destruct (run_guards ttl store l2).
  - destruct (guard ttl store (c_time c) (c_key c) (c_ctx c) (c_proceed c)) as [s1 o].
    rewrite IH. destruct (run_guards ttl s1 l1) as [s2 o1].
    by destruct (run_guards ttl s2 l2).
Qed.

Lemma run_guards_length ttl store (l : list call) :
  length (run_guards ttl store l).2 = length l.
Proof.
  revert store. induction l as [|c l IH]; intros store; cbn [run_guards]; [done|].
  destruct (guard ttl store (c_time c) (c_key c) (c_ctx c) (c_proceed c)) as [s1 o].
  specialize (IH s1). destruct (run_guards ttl s1 l). simpl. by f_equal.
Qed.

(** A call that ran [proceed] successfully leaves its result in the
    store until [now + ttl]. *)
Lemma guard_stores_success ttl (store : gmap string (entry Res)) now key ctx proceed s' o v :
  guard ttl store now key ctx proceed = (s', o) ->
  proceeded o = true -> out_res o = Ok (E:=Exn) v ->
  s' !! key = Some (mk_entry v (now + ttl)%Z).
Proof.
  unfold guard. destruct (proceed ctx) as [c1 [v'|e]] eqn:Hp.
  - destruct (store !! key) as [en|];
      [destruct (bool_decide (now < expires_at en)%Z)|];
      intros E; inversion E; subst; simpl; try discriminate;
      intros _ Hv; inversion Hv; subst; by rewrite lookup_insert_eq.
  - destruct (store !! key) as [en|];
      [destruct (bool_decide (now < expires_at en)%Z)|];
      intros E; inversion E; subst; simpl; discriminate.
Qed.

(** A call with another key leaves the entry of [key] alone. *)
Lemma guard_other_key ttl (store : gmap string (entry Res)) now key' ctx
    (proceed : gmap string ctx_val -> gmap string ctx_val * result Res Exn) key :
  key' <> key ->
  (guard ttl store now key' ctx proceed).1 !! key = store !! key.
Proof.
  intros Hne. unfold guard. destruct (proceed ctx) as [c1 [v|e]].
  - destruct (store !! key') as [en|];
      [destruct (bool_decide (now < expires_at en)%Z)|]; simpl;
      rewrite ?lookup_insert_ne; done.
  - destruct (store !! key') as [en|];
      [destruct (bool_decide (now < expires_at en)%Z)|]; done.
Qed.

(** A call with the key of a live entry is a hit. *)
Lemma guard_hit ttl (store : gmap string (entry Res)) now key ctx
    (proceed : gmap string ctx_val -> gmap string ctx_val * result Res Exn) v T :
  store !! key = Some (mk_entry v T) -> (now < T)%Z ->
  guard ttl store now key ctx proceed =
    (store, mk_out false (<["idempotency_hit" := CBool true]> ctx) (Ok v)).
Proof.
  intros Hs Ht. unfold guard. rewrite Hs. simpl.
  rewrite bool_decide_eq_true_2 by done. reflexivity.
Qed.

(** [guard] is its lookup followed, on a miss, by the completion of
    [proceed]'s outcome. *)
Lemma guard_split ttl (store : gmap string (entry Res)) now key ctx
    (proceed : gmap string ctx_val -> gmap string ctx_val * result Res Exn) :
  guard ttl store now key ctx proceed =
    match guard_lookup store now key with
    | Some v => (store, mk_out false (<["idempotency_hit" := CBool true]> ctx) (Ok v))
    | None => guard_finish ttl store now key (proceed ctx)
    end.
Proof.
  unfold guard, guard_lookup, guard_finish.
  destruct (proceed ctx) as [c1 [v|e]];
    destruct (store !! key) as [en|]; [destruct (bool_decide (now < expires_at en)%Z)| |
                                       destruct (bool_decide (now < expires_at en)%Z)|];
    reflexivity.
Qed.

(** A failed call leaves the store as it was. *)
Lemma guard_failure_store ttl (store : gmap string (entry Res)) now key ctx
    (proceed : gmap string ctx_val -> gmap string ctx_val * result Res Exn) s' o e :
  guard ttl store now key ctx proceed = (s', o) -> out_res o = Err e -> s' = store.
Proof.
  unfold guard. destruct (proceed ctx) as [c1 [v|e']];
    destruct (store !! key) as [en|]; [destruct (bool_decide (now < expires_at en)%Z)| |
                                       destruct (bool_decide (now < expires_at en)%Z)|];
    intros E; inversion E; subst; simpl; try discriminate; done.
Qed.

(** A call that ran [proceed] found no entry of its key live at its
    arrival time. *)
Lemma guard_proceeded_miss ttl (store : gmap string (entry Res)) now key ctx
    (proceed : gmap string ctx_val -> gmap string ctx_val * result Res Exn) s' o :
  guard ttl store now key ctx proceed = (s', o) -> proceeded o = true ->
  forall en, store !! key = Some en -> (expires_at en <= now)%Z.
Proof.
  intros E Hp en Hen. unfold guard in E. rewrite Hen in E.
  destruct (bool_decide (now < expires_at en)%Z) eqn:Hb.
  - inversion E; subst. discriminate.
  - apply bool_decide_eq_false_1 in Hb. lia.
Qed.

(** Without a live entry of its key, a call runs [proceed]. *)
Lemma guard_miss_proceeds ttl (store : gmap string (entry Res)) now key ctx
    (proceed : gmap string ctx_val -> gmap string ctx_val * result Res Exn) :
  (forall en, store !! key = Some en -> (expires_at en <= now)%Z) ->
  proceeded (guard ttl store now key ctx proceed).2 = true.
Proof.
  intros H. unfold guard.
  destruct (store !! key) as [en|] eqn:Hs.
  - rewrite bool_decide_eq_false_2 by (specialize (H en eq_refl); lia).
    by destruct (proceed ctx) as [c1 [v|e]].
  - by destruct (proceed ctx) as [c1 [v|e]].
Qed.

(** Calls with other keys leave the entry of [key] alone. *)
Lemma run_guards_other_keys ttl key (l : list call) :
  (forall c', c' ∈ l -> c_key c' <> key) ->
  forall store, (run_guards ttl store l).1 !! key = store !! key.
Proof.
  induction l as [|c0 l IH]; intros Hl store; [done|].
  cbn [run_guards].
  destruct (guard ttl store (c_time c0) (c_key c0) (c_ctx c0) (c_proceed c0))
    as [s1 o] eqn:Eg.
  pose proof (guard_other_key ttl store (c_time c0) (c_key c0) (c_ctx c0)
                (c_proceed c0) key (Hl c0 ltac:(by left))) as H.
  rewrite Eg in H. simpl in H.
  specialize (IH ltac:(intros c' Hc'; apply Hl; by right) s1).
  destruct (run_guards ttl s1 l) as [s2 os]. simpl in *. congruence.
Qed.

Lemma drop_S_app {A} (l : list A) x k : drop (S (length l)) (l ++ x :: k) = k.
Proof. induction l as [|y l IH]; simpl; [apply drop_0|exact IH]. Qed.

Lemma run_guards_replay ttl key v T (post : list call) :
  (forall c', c' ∈ post -> c_key c' = key -> (c_time c' < T)%Z) ->
  forall store, store !! key = Some (mk_entry v T) ->
  forall q c', post !! q = Some c' -> c_key c' = key ->
    (run_guards ttl store post).2 !! q =
      Some (mk_out false (<["idempotency_hit" := CBool true]> (c_ctx c')) (Ok v)).
Proof.
  intros Hwin. induction post as [|c0 post IH]; intros store Hs q c' Hq Hk;
    [done|].
  cbn [run_guards].
  destruct (guard ttl store (c_time c0) (c_key c0) (c_ctx c0) (c_proceed c0))
    as [s1 o] eqn:Eg.
  assert (Hs1 : s1 !! key = Some (mk_entry v T)).
  { destruct (decide (c_key c0 = key)) as [Heq|Hne].
    - rewrite guard_hit with (v := v) (T := T) in Eg; [|by rewrite Heq|].
      + by inversion Eg; subst.
      + apply Hwin; [by left|done].
    - pose proof (guard_other_key ttl store (c_time c0) (c_key c0) (c_ctx c0)
                    (c_proceed c0) key Hne) as H.
      rewrite Eg in H. simpl in H. by rewrite H. }
  destruct (run_guards ttl s1 post) as [s2 os] eqn:Er.
  destruct q as [|q]; simpl in Hq |- *.
  - inversion Hq; subst.
    rewrite guard_hit with (v := v) (T := T) in Eg; [by inversion Eg|done|].
    apply Hwin; [by left|done].
  - specialize (IH ltac:(intros c'' Hc''; apply Hwin; by right) s1 Hs1 q c' Hq Hk).
    by rewrite Er in IH.
Qed.
End Facts.
End IdempotencyFacts.

Module IdempotencyClaims.
Import Idempotency IdempotencyFacts.

(** C2 (counterexample): two records with the same key, the second
    within the TTL of the first.  Processed one after the other, the
    first execution fails, so nothing is stored and [proceed] runs a
    second time.  Guarded concurrently under the racing policy, both
    lookups miss and [proceed] runs twice with two different successful
    results. *)
Lemma guard_runs_twice_after_failure :
  map proceeded
    (run_guards 10%Z ∅
       [mk_call 0%Z "order-1" ∅ (fun c => (c, Err (A:=Z) tt));
        mk_call 1%Z "order-1" ∅ (fun c => (c, Ok (E:=unit) 42%Z))]).2
  = [true; true] /\
  map (fun o => (proceeded o, out_res o))
    (race2 10%Z ∅ (mk_call 0%Z "order-1" ∅ (fun c => (c, Ok (E:=unit) 1%Z)))
                  (mk_call 1%Z "order-1" ∅ (fun c => (c, Ok (E:=unit) 2%Z)))).2
  = [(true, Ok 1%Z); (true, Ok 2%Z)].
Proof. split; reflexivity. Qed.

(** C2 (amended): records with one key whose guards run one after the
    other.  Once [proceed] has succeeded with [v] for a record of that
    key, every later record of that key within the TTL of that success is
    short-circuited: [proceed] is not invoked, the caller receives [v],
    and its context carries the [idempotency_hit] flag.  A failed
    execution stores nothing: the store and the outcomes of all later
    records are those of the same run without that record, and the next
    record of that key arriving no earlier runs [proceed] again. *)
Theorem guard_replays_stored_result {Res Exn : Type} (ttl : Z)
    (store : gmap string (entry Res)) (pre : list (call Res Exn)) (c : call Res Exn)
    (post : list (call Res Exn)) (o : guard_out Res Exn) :
  (run_guards ttl store (pre ++ c :: post)).2 !! length pre = Some o ->
  proceeded o = true ->
  (forall v, out_res o = Ok v ->
     (forall c', c' ∈ post -> c_key c' = c_key c -> (c_time c' < c_time c + ttl)%Z) ->
     forall q c', post !! q = Some c' -> c_key c' = c_key c ->
       (run_guards ttl store (pre ++ c :: post)).2 !! S (length pre + q) =
         Some (mk_out false (<["idempotency_hit" := CBool true]> (c_ctx c')) (Ok v))) /\
  (forall e, out_res o = Err e ->
     (run_guards ttl store (pre ++ c :: post)).1 = (run_guards ttl store (pre ++ post)).1 /\
     drop (S (length pre)) (run_guards ttl store (pre ++ c :: post)).2 =
       drop (length pre) (run_guards ttl store (pre ++ post)).2 /\
     forall q c', post !! q = Some c' -> c_key c' = c_key c -> (c_time c <= c_time c')%Z ->
       (forall q' c'', q' < q -> post !! q' = Some c'' -> c_key c'' <> c_key c) ->
       exists o', (run_guards ttl store (pre ++ c :: post)).2 !! S (length pre + q) = Some o' /\
                  proceeded o' = true).
Proof.
  intros Ho Hp.
  rewrite !run_guards_app in Ho |- *.
  destruct (run_guards ttl store pre) as [s1 o1] eqn:E1.
  pose proof (run_guards_length _ _ ttl store pre) as Hlen.
  rewrite E1 in Hlen. simpl in Hlen.
  cbn [run_guards] in Ho |- *.
  destruct (guard ttl s1 (c_time c) (c_key c) (c_ctx c) (c_proceed c)) as [s2 o2] eqn:Eg.
  destruct (run_guards ttl s2 post) as [s3 os] eqn:E3.
  simpl in Ho |- *.
  rewrite lookup_app_r in Ho by lia. rewrite Hlen, Nat.sub_diag in Ho.
  simpl in Ho. inversion Ho; subst o2.
  split.
  - intros v Hv Hwin q c' Hq Hk.
    pose proof (guard_stores_success _ _ ttl s1 _ _ _ _ _ _ _ Eg Hp Hv) as Hs2.
    rewrite lookup_app_r by lia.
    replace (S (length pre + q) - length o1) with (S q) by lia. simpl.
    pose proof (run_guards_replay _ _ ttl (c_key c) v (c_time c + ttl)%Z post Hwin s2 Hs2
                  q c' Hq Hk) as H.
    by rewrite E3 in H.
  - intros e He.
    pose proof (guard_failure_store _ _ ttl s1 _ _ _ _ _ _ _ Eg He) as ->.
    rewrite run_guards_app, E1, E3. simpl. split; [done|]. split.
    + rewrite <- Hlen. rewrite drop_S_app, drop_app_length. done.
    + intros q c' Hq Hk Ht Hbefore.
      rewrite lookup_app_r by lia.
      replace (S (length pre + q) - length o1) with (S q) by lia. simpl.
      pose proof (take_drop_middle post q c' Hq) as Hpost.
      rewrite <- Hpost, run_guards_app in E3.
      assert (Hother : forall s, (run_guards ttl s (take q post)).1 !! c_key c = s !! c_key c).
      { apply run_guards_other_keys. intros c'' Hc''.
        apply elem_of_take in Hc'' as [q' [Hq' Hlt]]. exact (Hbefore q' c'' Hlt Hq'). }
      specialize (Hother s1).
      destruct (run_guards ttl s1 (take q post)) as [s4 os1] eqn:E4.
      pose proof (run_guards_length _ _ ttl s1 (take q post)) as Hlen1.
      rewrite E4 in Hlen1. simpl in Hlen1, Hother.
      cbn [run_guards] in E3.
      assert (Hpr : proceeded (guard ttl s4 (c_time c') (c_key c') (c_ctx c') (c_proceed c')).2 = true).
      { apply guard_miss_proceeds. intros en Hen. rewrite Hk, Hother in Hen.
        pose proof (guard_proceeded_miss _ _ ttl s1 _ _ _ _ _ _ Eg Hp en Hen). lia. }
      destruct (guard ttl s4 (c_time c') (c_key c') (c_ctx c') (c_proceed c')) as [s5 o5].
      destruct (run_guards ttl s5 (drop (S q) post)) as [s6 os2].
      inversion E3; subst os.
      exists o5. split; [|exact Hpr].
      apply lookup_lt_Some in Hq.
      rewrite length_take in Hlen1.
      rewrite lookup_app_r by lia.
      rewrite Hlen1. replace (q - q `min` length post) with 0 by lia. reflexivity.
Qed.
End IdempotencyClaims.

Module RecordContextFacts.
Import Pipeline Batch RecordContexts.
Section Facts.
Variables Ext Res Exn : Type.
Abbreviation state := (gmap string ctx_val * Ext)%type.
Variable ms : sqs_record -> list (middleware state Res Exn).
Variable h : sqs_record -> state -> state * result Res Exn.

Lemma run_records_app ext l1 l2 :
  run_records ms h ext (l1 ++ l2) =
  (let '(e1, o1) := run_records ms h ext l1 in
   let '(e2, o2) := run_records ms h e1 l2 in (e2, o1 ++ o2)).
Proof.
  revert ext. induction l1 as [|r l1 IH]; intros ext; cbn [run_records app].
  - by destruct (run_records ms h ext l2).
  - destruct (execute (ms r) (h r) (fresh_ctx r, ext)) as [[st lg] res].
    rewrite IH. destruct (run_records ms h st.2 l1) as [e2 o1].
    by destruct (run_records ms h e2 l2).
Qed.

Lemma run_records_length ext l : length (run_records ms h ext l).2 = length l.
Proof.
  revert ext. induction l as [|r l IH]; intros ext; cbn [run_records]; [done|].
  destruct (execute (ms r) (h r) (fresh_ctx r, ext)) as [[st lg] res].
  specialize (IH st.2). destruct (run_records ms h st.2 l). simpl. by f_equal.
Qed.

(** C6: the outcome of a record is the outcome of the pipeline started
    from a fresh context for that record and from the external stores
    left by the records before it: nothing else those records did (in
    particular nothing they wrote to their own contexts) can reach it. *)
Theorem record_context_isolated (ext : Ext) (pre : list sqs_record) (r : sqs_record)
    (post : list sqs_record) :
  (run_records ms h ext (pre ++ r :: post)).2 !! length pre =
    Some (execute (ms r) (h r) (fresh_ctx r, (run_records ms h ext pre).1)).2.
Proof.
  rewrite run_records_app.
  destruct (run_records ms h ext pre) as [e1 o1] eqn:E1.
  pose proof (run_records_length ext pre) as Hlen. rewrite E1 in Hlen. simpl in Hlen.
  cbn [run_records].
  destruct (execute (ms r) (h r) (fresh_ctx r, e1)) as [[st lg] res] eqn:Ex.
  destruct (run_records ms h st.2 post) as [e2 o2].
  simpl. rewrite lookup_app_r by lia. rewrite Hlen, Nat.sub_diag, Ex. reflexivity.
Qed.
End Facts.

(** The logging middleware of the custom middleware example counts the
    messages it has seen in the context; with a fresh context per record
    the count is 1 for every record of a batch. *)
Definition logging_mw : middleware (gmap string ctx_val * unit) Z unit :=
  Build_middleware (fun st => ((custom_logging_before 0 st.1, st.2), None))
                   (fun st v => (st, v)) (fun st e => (st, Propagate e)).

Example custom_logging_count_per_record :
  (run_records (fun _ => [logging_mw])
     (fun _ st => (st, Ok (ctx_get_num st.1 "message_count" 0)))
     tt
     [mk_record "msg-001" "login" ∅ None None;
      mk_record "msg-002" "logout" ∅ None None]).2
  = [Ok 1%Z; Ok 1%Z].
Proof. reflexivity. Qed.
End RecordContextFacts.

Module RouterFacts.
Import Router.
Section Facts.
Context {H : Type}.

(** [pick] with the chain given directly. *)
Definition pick_cs (cs : list string) (best : option (nat * H)) (reg : string * H)
  : option (nat * H) :=
  match index_of reg.1 cs with
  | None => best
  | Some d =>
      match best with
      | Some (d0, _) => if Nat.ltb d d0 then Some (d, reg.2) else best
      | None => Some (d, reg.2)
      end
  end.

(** Keep the first unless the second is strictly closer. *)
Definition merge (a b : option (nat * H)) : option (nat * H) :=
  match a, b with
  | Some (d0, h0), Some (d, h) => if Nat.ltb d d0 then Some (d, h) else Some (d0, h0)
  | None, b => b
  | a, None => a
  end.

Definition single (cs : list string) (reg : string * H) : option (nat * H) :=
  (fun d => (d, reg.2)) <$> index_of reg.1 cs.

Fixpoint best (cs : list string) (regs : list (string * H)) : option (nat * H) :=
  match regs with
  | [] => None
  | reg :: rest => merge (single cs reg) (best cs rest)
  end.

Lemma pick_cs_merge cs acc reg : pick_cs cs acc reg = merge acc (single cs reg).
Proof.
  unfold pick_cs, merge, single.
  destruct (index_of reg.1 cs); destruct acc as [[d0 h0]|]; done.
Qed.

Lemma merge_assoc a b c : merge (merge a b) c = merge a (merge b c).
Proof.
  destruct a as [[da ha]|], b as [[db hb]|], c as [[dc hc]|]; simpl; try done;
    repeat (match goal with |- context [?x <? ?y] => destruct (Nat.ltb_spec x y) end;
            simpl);
    first [done | lia].
Qed.

Lemma merge_None_r a : merge a None = a.
Proof. by destruct a as [[??]|]. Qed.

Lemma fold_pick_best cs regs acc :
  fold_left (pick_cs cs) regs acc = merge acc (best cs regs).
Proof.
  revert acc. induction regs as [|reg regs IH]; intros acc; simpl.
  - by rewrite merge_None_r.
  - rewrite IH, pick_cs_merge. apply merge_assoc.
Qed.

Definition shift (a : option (nat * H)) : option (nat * H) :=
  (fun p => (S p.1, p.2)) <$> a.

Lemma merge_shift a b : merge (shift a) (shift b) = shift (merge a b).
Proof.
  destruct a as [[da ha]|], b as [[db hb]|]; simpl; try done.
  destruct (Nat.ltb_spec db da), (Nat.ltb_spec (S db) (S da)); simpl; first [done | lia].
Qed.

Lemma index_of_cons x c cs :
  index_of x (c :: cs) = if String.eqb x c then Some 0 else S <$> index_of x cs.
Proof. done. Qed.

Lemma best_nil regs : best [] regs = None.
Proof. induction regs as [|reg regs IH]; simpl; [done|]. by rewrite IH. Qed.

Lemma best_cons c cs regs :
  best (c :: cs) regs =
    match first_registered regs c with
    | Some h => Some (0, h)
    | None => shift (best cs regs)
    end.
Proof.
  induction regs as [|[ty h] regs IH]; simpl; [done|].
  rewrite IH. unfold single at 1. simpl.
  destruct (String.eqb c ty) eqn:Ec.
  - apply String.eqb_eq in Ec. subst ty. rewrite String.eqb_refl. simpl.
    destruct (first_registered regs c) as [h'|];
      [done|destruct (shift (best cs regs)) as [[??]|]; done].
  - assert (Et : String.eqb ty c = false).
    { apply String.eqb_neq. intros ->. by rewrite String.eqb_refl in Ec. }
    rewrite Et.
    destruct (first_registered regs c) as [h'|].
    + destruct (index_of ty cs); simpl; done.
    + rewrite <- merge_shift. unfold single. simpl.
      by destruct (index_of ty cs).
Qed.

Lemma best_nearest cs regs : snd <$> best cs regs = nearest regs cs.
Proof.
  induction cs as [|c cs IH]; simpl.
  - by rewrite best_nil.
  - rewrite best_cons. destruct (first_registered regs c); [done|].
    rewrite <- IH. by destruct (best cs regs) as [[??]|].
Qed.
End Facts.
End RouterFacts.

Module RouterClaims.
Import Router RouterFacts.

Lemma resolve_nearest {H : Type} (hier : hierarchy) (regs : list (string * H))
    (wild : option H) (t : string) :
  resolve hier regs wild t =
    match nearest regs (chain hier t) with Some h => Some h | None => wild end.
Proof.
  unfold resolve. change (pick hier t) with (pick_cs (H:=H) (chain hier t)).
  rewrite fold_pick_best, <- best_nearest.
  by destruct (best (chain hier t) regs) as [[??]|].
Qed.

(** A hierarchy in the style of the vehicle example, one level deeper:
    ElectricCar derives from Car, which derives from Vehicle. *)
Definition vehicles : hierarchy :=
  <["ElectricCar" := ["Car"; "Vehicle"]]>
    (<["Car" := ["Vehicle"]]> (<["Vehicle" := []]> ∅)).

Definition vehicle_regs : list (string * string) :=
  [("ElectricCar", "handle_electric_car"); ("Vehicle", "handle_vehicle")].

(** C8 (counterexample): handlers for the derived type ElectricCar and
    its ancestor Vehicle, and a wildcard.  A message declared as the base
    type Car, which has no handler, does not fall to the wildcard: it
    goes to the Vehicle handler, the nearest registered ancestor. *)
Lemma resolve_base_without_handler_not_wildcard :
  resolve vehicles vehicle_regs (Some "fallback") "ElectricCar" = Some "handle_electric_car" /\
  resolve vehicles vehicle_regs (Some "fallback") "Car" = Some "handle_vehicle" /\
  Some "handle_vehicle" <> Some "fallback".
Proof. split; [reflexivity|split; [reflexivity|discriminate]]. Qed.

(** C8 (amended): the router takes the registration with the smallest
    ancestor distance (the first registered on a tie), that is the first
    handler of the first registered type on the declared type's chain,
    else the wildcard.  Hence a type with a handler of its own gets it; a
    type without one gets its nearest registered ancestor's handler, else
    the wildcard; and a type without a handler of its own whose parent is
    [b] is routed exactly as a message declared as [b]. *)
Theorem resolve_most_specific {H : Type} (hier : hierarchy) (regs : list (string * H))
    (wild : option H) (t b : string) (rest : list string) :
  (resolve hier regs wild t =
     match nearest regs (chain hier t) with Some h => Some h | None => wild end) /\
  (forall h, first_registered regs t = Some h -> resolve hier regs wild t = Some h) /\
  (first_registered regs t = None ->
     resolve hier regs wild t =
       match nearest regs (default [] (hier !! t)) with Some h => Some h | None => wild end) /\
  (hier !! t = Some (b :: rest) -> hier !! b = Some rest ->
     first_registered regs t = None ->
     resolve hier regs wild t = resolve hier regs wild b).
Proof.
  rewrite !resolve_nearest. unfold chain. simpl.
  split; [done|]. split; [intros h Hh; by rewrite Hh|].
  split; [intros Hn; by rewrite Hn|].
  intros Ht Hb Hn. rewrite Hn, Ht, Hb. simpl. done.
Qed.
End RouterClaims.

(* ================================================================== *)
(** * Concrete runs of the theorems *)

Module Examples.
Import Pipeline PipelineClaims.

(** Two middleware: the first passes everything on, the second turns
    any exception into the result 7. *)
Definition pass_mw : middleware nat nat nat :=
  Build_middleware (fun c => (S c, None)) (fun c v => (c, S v)) (fun c e => (c, Propagate (S e))).
Definition rescue_mw : middleware nat nat nat :=
  Build_middleware (fun c => (S c, None)) (fun c v => (c, v * 2)) (fun c e => (c, Suppress 7)).
Definition two_mws : list (middleware nat nat nat) := [pass_mw; rescue_mw].
Definition raise_mw : middleware nat nat nat :=
  Build_middleware (fun c => (S c, Some 9)) (fun c v => (c, v)) (fun c e => (c, Propagate e)).
Definition raising_mws : list (middleware nat nat nat) := [pass_mw; pass_mw; raise_mw; rescue_mw].

Definition ok_handler (c : nat) : nat * result nat nat := (c, Ok 5).
Definition failing_handler (c : nat) : nat * result nat nat := (c, Err 3).

Lemma execute_hook_order_witness :
  ok_handler 2 = (2, Ok 5) /\
  ((execute two_mws ok_handler 0).1.2 =
    map EvBefore (seq 0 2) ++ EvHandler :: map EvAfter (rev (seq 0 2)) /\
  (execute two_mws ok_handler 0).2 = Ok (after_chain (rev two_mws) 2 5)) /\
  exists j, (execute raising_mws ok_handler 0).1.2 =
    map EvBefore (seq 0 3) ++ map EvError (firstn j (rev (seq 0 2))) /\ j = 2.
Proof.
  split; [reflexivity|]. split.
  - exact (execute_hook_order nat nat nat two_mws ok_handler 0 2 5 eq_refl).
  - pose proof (execute_hook_order nat nat nat raising_mws ok_handler 0) as H.
    vm_compute in H. destruct H as [_ [j [Ht [Hj _]]]].
    exists j. split; [|exact Hj]. vm_compute. exact Ht.
Defined.

Lemma execute_handler_failure_witness :
  run_before 0 two_mws 0 = (2, [EvBefore 0; EvBefore 1], None) /\
  failing_handler 2 = (2, Err 3) /\
  exists j,
    (execute two_mws failing_handler 0).1.2 =
      map EvBefore (seq 0 (length two_mws)) ++ EvHandler ::
        map EvError (firstn j (rev (seq 0 (length two_mws)))) /\
    match (execute two_mws failing_handler 0).2 with
    | Ok v => exists pre i m cx ex cy,
        rev (indexed two_mws) = pre ++ (i, m) :: drop j (rev (indexed two_mws)) /\
        length pre = j - 1 /\
        propagate_through pre 2 3 = Some (cx, ex) /\
        error m cx ex = (cy, Suppress v)
    | Err e' => j = length two_mws /\
        exists cx, propagate_through (rev (indexed two_mws)) 2 3 = Some (cx, e')
    end.
Proof.
  split; [reflexivity|]. split; [reflexivity|].
  apply (execute_handler_failure nat nat nat two_mws failing_handler 0 2 2
           [EvBefore 0; EvBefore 1] 3); reflexivity.
Defined.
End Examples.

Module BatchExamples.
Import Batch BatchFacts.

Definition rec_a : sqs_record := mk_record "a" "ok" ∅ None None.
Definition rec_b : sqs_record := mk_record "b" "boom" ∅ None None.
Definition fail_b (r : sqs_record) : result unit unit :=
  if String.eqb (messageId r) "b" then Err tt else Ok tt.

Lemma run_batch_partition_witness :
  [rec_b; rec_a] ≡ₚ [rec_a; rec_b] /\
  (forall id, id ∈ failed_ids (run_batch fail_b [rec_b; rec_a]) <->
              per_record (run_batch fail_b [rec_b; rec_a]) !! id = Some Failure) /\
  NoDup (failed_ids (run_batch fail_b [rec_b; rec_a])).
Proof.
  assert (Hp : [rec_b; rec_a] ≡ₚ [rec_a; rec_b]) by apply Permutation_swap.
  destruct (run_batch_partition fail_b [rec_a; rec_b] [rec_b; rec_a] Hp)
    as (_ & Hf & _ & Hnd & _).
  split; [exact Hp|]. split; [exact Hf|exact Hnd].
Defined.
End BatchExamples.

Module SchedulerExamples.
Import Scheduler SchedulerFacts.

(** With [maxConcurrent = 1]: record 1 starts, settles, then record 2
    starts. *)
Lemma in_flight_bounded_witness :
  rtc (step 1) (init [1; 2]) (mk_sched [] [2] [1]) /\
  length (in_flight (mk_sched [] [2] [1])) <= 1.
Proof.
  assert (Hr : rtc (step 1) (init [1; 2]) (mk_sched [] [2] [1])).
  { eapply rtc_l.
    { apply (step_start 1 [] 1 [2] [] []). simpl. lia. }
    eapply rtc_l.
    { apply (step_settle 1 [2] [] 1 [] []). }
    eapply rtc_l.
    { apply (step_start 1 [] 2 [] [] [1]). simpl. lia. }
    apply rtc_refl. }
  split; [exact Hr|]. exact (in_flight_bounded 1 [1; 2] _ Hr).
Defined.
End SchedulerExamples.

Module RetryExamples.
Import Retry RetryFacts.
Local Open Scope Q_scope.

Definition timeout_policy : retry_policy :=
  mk_policy 3 1 (Some 10) true true ["Timeout"].

Definition always_timeout (r : Batch.sqs_record) (a : nat) : result unit string :=
  Err "Timeout".

Definition rec_t : Batch.sqs_record := Batch.mk_record "t" "" ∅ None None.

Lemma with_retry_four_attempts_witness :
  max_retries timeout_policy = 3%nat /\
  (with_retry timeout_policy (always_timeout rec_t) (fun _ => 1#2)).1.1 = 4%nat /\
  Batch.messageId rec_t ∈
    Batch.failed_ids (Batch.run_batch
      (fun r' => (with_retry timeout_policy (always_timeout r') (fun _ => 1#2)).2) [rec_t]).
Proof.
  assert (Hm : max_retries timeout_policy = 3%nat) by reflexivity.
  assert (Ho : forall a, exists kind, always_timeout rec_t a = Err kind /\
                                      is_retryable timeout_policy kind = true).
  { intros a. exists "Timeout". split; reflexivity. }
  destruct (with_retry_four_attempts timeout_policy always_timeout (fun _ => 1#2)
              [rec_t] rec_t Hm Ho) as (Hn & _ & Hb).
  split; [exact Hm|]. split; [exact Hn|].
  apply Hb; [left|]. apply NoDup_singleton.
Defined.

Lemma backoff_delays_witness :
  base_delay timeout_policy == 1 /\
  computed_delay timeout_policy 2 == Qmin (inject_Z (2 ^ Z.of_nat 2)) 10 /\
  0 <= wait_delay timeout_policy 2 (1#2) <= computed_delay timeout_policy 2.
Proof.
  assert (Hb : base_delay timeout_policy == 1) by reflexivity.
  assert (Hm : forall m, max_delay timeout_policy = Some m -> 0 <= m).
  { intros m Hm. injection Hm as <-. vm_compute. discriminate. }
  destruct (backoff_delays timeout_policy 2 (1#2) Hb eq_refl Hm) as (Hc & _ & Hj).
  split; [exact Hb|]. split; [exact Hc|].
  apply Hj; [reflexivity|]. split; vm_compute; discriminate.
Defined.
End RetryExamples.

Module IdempotencyExamples.
Import Idempotency IdempotencyClaims.

Definition failed_call : call Z unit := mk_call 0%Z "order-1" ∅ (fun c => (c, Err tt)).
Definition first_call : call Z unit := mk_call 1%Z "order-1" ∅ (fun c => (c, Ok 42%Z)).
Definition later_call : call Z unit := mk_call 5%Z "order-1" ∅ (fun c => (c, Err tt)).

(** A failed first call, then a success, then a call within its TTL:
    the failure lets the second call run [proceed], and the third one
    is served the stored 42. *)
Lemma guard_replays_stored_result_witness :
  (exists o', (run_guards 10%Z ∅ ([] ++ failed_call :: [first_call; later_call])).2 !! 1 = Some o' /\
              proceeded o' = true) /\
  (run_guards 10%Z ∅ ([failed_call] ++ first_call :: [later_call])).2 !! 2 =
    Some (mk_out false (<["idempotency_hit" := CBool true]> ∅) (Ok 42%Z)).
Proof.
  split.
  - destruct (guard_replays_stored_result 10%Z ∅ [] failed_call [first_call; later_call]
                (mk_out true ∅ (Err tt))) as [_ Hf]; [vm_compute; reflexivity..|].
    destruct (Hf tt eq_refl) as (_ & _ & Hn).
    apply (Hn 0 first_call eq_refl eq_refl).
    + vm_compute. discriminate.
    + intros q' c'' Hlt. lia.
  - assert (Hw : forall c', c' ∈ [later_call] -> c_key c' = c_key first_call ->
                            (c_time c' < c_time first_call + 10)%Z).
    { intros c' Hc' _. apply list_elem_of_singleton in Hc'. subst c'.
      vm_compute. reflexivity. }
    destruct (guard_replays_stored_result 10%Z ∅ [failed_call] first_call [later_call]
                (mk_out true ∅ (Ok 42%Z))) as [Hs _]; [vm_compute; reflexivity..|].
    exact (Hs 42%Z eq_refl Hw 0 later_call eq_refl eq_refl).
Defined.
End IdempotencyExamples.

Module RouterExamples.
Import Router RouterClaims.

(** Car has no handler of its own and derives from Vehicle: it is
    routed as Vehicle. *)
Lemma resolve_most_specific_witness :
  vehicles !! "Car" = Some ["Vehicle"] /\ vehicles !! "Vehicle" = Some [] /\
  first_registered vehicle_regs "Car" = None /\
  resolve vehicles vehicle_regs (Some "fallback") "Car" =
    resolve vehicles vehicle_regs (Some "fallback") "Vehicle".
Proof.
  split; [reflexivity|]. split; [reflexivity|]. split; [reflexivity|].
  apply (resolve_most_specific vehicles vehicle_regs (Some "fallback") "Car" "Vehicle" []);
    reflexivity.
Defined.
End RouterExamples.

(* ================================================================== *)
(** * Further properties of the example code *)

Module EntityLockMore.
Import EntityLocks EntityLockFacts EntityEvents.

(** The lock map is well formed: every lock was allocated before the
    allocator's current position, and no two ids share a lock. *)
Definition lock_map_wf (h : heap) : Prop :=
  (forall k l, entity_locks h !! k = Some l -> l < next_obj h) /\
  (forall k1 k2 l, entity_locks h !! k1 = Some l -> entity_locks h !! k2 = Some l -> k1 = k2).

Lemma lock_map_wf_empty n : lock_map_wf (mk_heap ∅ n).
Proof. split; intros *; simpl; rewrite lookup_empty; discriminate. Qed.

Lemma get_entity_lock_wf id h : lock_map_wf h -> lock_map_wf (get_entity_lock id h).1.
Proof.
  intros [Hb Hi]. unfold get_entity_lock.
  destruct (entity_locks h !! id) as [l0|] eqn:E;
    cbn [fst snd new_lock entity_locks next_obj]; [by split|].
  unfold lock_map_wf. cbn [entity_locks next_obj]. split.
  - intros k l. destruct (String.eq_dec k id) as [->|Hne].
    + rewrite lookup_insert_eq. intros [= <-]. lia.
    + rewrite lookup_insert_ne by congruence. intros Hk. specialize (Hb _ _ Hk). lia.
  - intros k1 k2 l.
    destruct (String.eq_dec k1 id) as [->|Hne1], (String.eq_dec k2 id) as [->|Hne2];
      rewrite ?lookup_insert_eq, ?lookup_insert_ne by congruence; try done.
    + intros [= <-] Hk2. specialize (Hb _ _ Hk2). lia.
    + intros Hk1 [= <-]. specialize (Hb _ _ Hk1). lia.
    + apply Hi.
Qed.

Lemma run_calls_wf ids h : lock_map_wf h -> lock_map_wf (run_calls ids h).1.
Proof.
  revert h. induction ids as [|id ids IH]; intros h Hw; cbn [run_calls]; [done|].
  pose proof (get_entity_lock_wf id h Hw) as Hw1.
  destruct (get_entity_lock id h) as [h1 l]. simpl in Hw1.
  specialize (IH h1 Hw1). destruct (run_calls ids h1). exact IH.
Qed.

(** The lock a call returned is the one the map holds for its id at the
    end of the run. *)
Lemma run_calls_result ids h i o :
  (run_calls ids h).2 !! i = Some o ->
  exists id, ids !! i = Some id /\ o = entity_locks (run_calls ids h).1 !! id /\ is_Some o.
Proof.
  revert h i. induction ids as [|id ids IH]; intros h i Ho; cbn [run_calls fst snd] in *;
    [by rewrite lookup_nil in Ho|].
  destruct (get_entity_lock id h) as [h1 l] eqn:E.
  pose proof (run_calls_grows ids h1) as Hg.
  destruct (run_calls ids h1) as [h2 ls] eqn:E2. simpl in *.
  destruct i as [|i]; simpl in *.
  - injection Ho as <-. exists id. split; [done|].
    destruct (get_entity_lock_grows _ _ _ _ E) as (_ & -> & [l' Hl']).
    rewrite Hl'. split; [|done]. symmetry. by eapply lookup_weaken.
  - specialize (IH h1 i). rewrite E2 in IH. by apply IH.
Qed.

Lemma run_calls_defined ids h i id :
  ids !! i = Some id -> exists l, (run_calls ids h).2 !! i = Some (Some l).
Proof.
  intros Hi. assert (i < length (run_calls ids h).2).
  { rewrite run_calls_length. by apply lookup_lt_Some in Hi. }
  destruct (lookup_lt_is_Some_2 (run_calls ids h).2 i) as [o Ho]; [done|].
  destruct (run_calls_result _ _ _ _ Ho) as (id' & _ & _ & [l ->]). by exists l.
Qed.

Lemma lock_key_inj e1 e2 : lock_key e1 = lock_key e2 -> e1 = e2.
Proof. destruct e1, e2; simpl; intros H; inversion H as [H1]; f_equal; exact H1. Qed.

(** From a well-formed lock map (the module starts with the empty dict
    [entity_locks = {}]), the map stays well formed over any run of
    [get_entity_lock] calls, every call returns a lock (the final
    [entity_locks[entity_id]] never raises [KeyError]), and two calls
    that return the same lock object were made with the same id. *)
Theorem get_entity_lock_distinct_ids (h : heap) (ids : list string) :
  lock_map_wf h ->
  lock_map_wf (run_calls ids h).1 /\
  (forall i id, ids !! i = Some id -> exists l, (run_calls ids h).2 !! i = Some (Some l)) /\
  (forall i j l, (run_calls ids h).2 !! i = Some (Some l) ->
                 (run_calls ids h).2 !! j = Some (Some l) -> ids !! i = ids !! j).
Proof.
  intros Hw. pose proof (run_calls_wf ids h Hw) as Hw'.
  split; [done|]. split; [intros i id; apply run_calls_defined|].
  intros i j l Hi Hj.
  destruct (run_calls_result _ _ _ _ Hi) as (a & Ha & Hla & _).
  destruct (run_calls_result _ _ _ _ Hj) as (b & Hb & Hlb & _).
  rewrite Ha, Hb. f_equal. destruct Hw' as [_ Hinj]. by apply (Hinj a b l).
Qed.

(** The ordering example's handlers lock per entity: for the events a
    run of handlers processes, the locks two of them take are the same
    object exactly when the events concern the same entity (the same
    order, account or user); an order and an account, say, never share a
    lock even with equal ids. *)
Theorem handler_locks_per_entity (h : heap) (evs : list entity_event) :
  lock_map_wf h ->
  forall i j l1 l2,
    (run_calls (map lock_key evs) h).2 !! i = Some (Some l1) ->
    (run_calls (map lock_key evs) h).2 !! j = Some (Some l2) ->
    (l1 = l2 <-> evs !! i = evs !! j).
Proof.
  intros Hw i j l1 l2 Hi Hj.
  pose proof (run_calls_wf (map lock_key evs) h Hw) as [_ Hinj].
  destruct (run_calls_result _ _ _ _ Hi) as (a & Ha & Hla & _).
  destruct (run_calls_result _ _ _ _ Hj) as (b & Hb & Hlb & _).
  rewrite list_lookup_fmap in Ha, Hb.
  destruct (evs !! i) as [ei|], (evs !! j) as [ej|]; try discriminate.
  injection Ha as <-. injection Hb as <-. split.
  - intros <-. f_equal. apply lock_key_inj. by apply (Hinj _ _ l1).
  - intros [= <-]. congruence.
Qed.
End EntityLockMore.

Module FailingHandlerFacts.
Import Py Retry RetryFacts FailingHandlers.

Lemma endswith_spec s suffix :
  endswith s suffix = true <-> exists p, s = String.append p suffix.
Proof.
  induction s as [|a s IH]; cbn [endswith].
  - rewrite orb_false_r, String.eqb_eq. split.
    + intros <-. by exists "".
    + intros [[|b p] Hp]; [done|discriminate].
  - rewrite orb_true_iff, String.eqb_eq, IH. split.
    + intros [<-|[p ->]]; [by exists ""|by exists (String a p)].
    + intros [[|b p] Hp]; simpl in Hp; [by left|].
      injection Hp as <- ->. right. by exists p.
Qed.

Lemma append_nonempty p s : s <> "" -> String.append p s <> "".
Proof. destruct p; simpl; [done|discriminate]. Qed.

Lemma process_order_fails_iff order_id :
  (exists e, process_order order_id = Err e) <-> exists p, order_id = String.append p "error".
Proof.
  unfold process_order. rewrite <- endswith_spec.
  destruct (endswith order_id "error") eqn:He.
  - apply endswith_spec in He as [p ->].
    unfold str_truthy. rewrite (proj2 (String.eqb_neq _ _)) by (by apply append_nonempty).
    simpl. split; [done|]. by eexists.
  - rewrite andb_false_r. split; [intros [e ?]; discriminate|done].
Qed.

(** [process_order] under the example's retry configuration: it fails
    exactly for order ids ending in "error"; such an order is attempted 4
    times (the initial call and 3 retries, [ValueError] being listed as
    retryable), the [ValueError] is surfaced, and without jitter the
    waits are 1, 2 and 4 seconds; any other order succeeds at the first
    attempt with no wait. *)
Theorem process_order_retry (jit : bool) (rand : nat -> Q) (order_id : string) :
  ((exists e, process_order order_id = Err e) <-> exists p, order_id = String.append p "error") /\
  ((exists p, order_id = String.append p "error") ->
     (with_retry (comprehensive_retry jit) (as_attempt (process_order order_id)) rand).1.1 = 4%nat /\
     (with_retry (comprehensive_retry jit) (as_attempt (process_order order_id)) rand).2
       = Err "ValueError" /\
     (jit = false ->
        (with_retry (comprehensive_retry jit) (as_attempt (process_order order_id)) rand).1.2
          = [1; 2; 4]%Q)) /\
  (~ (exists p, order_id = String.append p "error") ->
     with_retry (comprehensive_retry jit) (as_attempt (process_order order_id)) rand
       = (1%nat, [], Ok [("order_id", JStr order_id); ("status", JStr "processed");
                         ("processed_at", JStr "2024-01-01T00:00:00Z")])).
Proof.
  split; [apply process_order_fails_iff|]. split.
  - intros Hs. apply process_order_fails_iff in Hs as [e He].
    assert (Hk : e = ValueError (String.append "Simulated error for order " order_id)).
    { unfold process_order in He.
      destruct (str_truthy order_id && endswith order_id "error"); congruence. }
    subst e.
    assert (Ha : as_attempt (process_order order_id) = fun _ => Err "ValueError")
      by (unfold as_attempt; by rewrite He).
    rewrite Ha. split; [|split]; [destruct jit; reflexivity|destruct jit; reflexivity|].
    intros ->. reflexivity.
  - intros Hn. destruct (process_order order_id) as [v|e] eqn:Ho.
    + unfold process_order in Ho.
      destruct (str_truthy order_id && endswith order_id "error"); [discriminate|].
      injection Ho as <-. reflexivity.
    + exfalso. apply Hn, process_order_fails_iff. by exists e.
Qed.

End FailingHandlerFacts.

Module CustomAppFacts.
Import Pipeline RecordContexts Py CustomApp.

(** The outcome of the custom middleware app's pipeline for a record,
    when the handler leaves the context alone. *)
Lemma custom_app_outcome (p : payload) (ck : clock) (r : Batch.sqs_record)
    (out : result dict py_exn) :
  (execute (app_middleware p ck) (fun c => (c, out)) (start_ctx r)).2 =
    if truthy (py_get p "action")
    then match out with
         | Ok v => Ok v
         | Err e => Ok [("status", JStr "error"); ("error", JStr (exn_str e))]
         end
    else Err (ValueError "Missing required field: action").
Proof.
  unfold execute, app_middleware, error_handling_mw, error_handling_before.
  destruct (truthy (py_get p "action")); [|vm_compute; reflexivity].
  destruct out; vm_compute; reflexivity.
Qed.

(** In the custom middleware app, a handler that raises never fails the
    record: every [before] hook runs, then the handler, then the [error]
    hooks of [MetricsMiddleware] (which counts the failure and lets the
    exception through without raising one of its own) and of
    [ErrorHandlingMiddleware], which suppresses it with
    {"status": "error", "error": str(e)}; [CustomLoggingMiddleware]'s hook
    is not reached.  The context ends with [error_count = 1] and metrics
    counting one message and one failure. *)
Theorem custom_app_handler_failure (p : payload) (ck : clock) (r : Batch.sqs_record)
    (e : py_exn) :
  truthy (py_get p "action") = true ->
  let '(c, trace, res) := execute (app_middleware p ck) (fun c => (c, Err e)) (start_ctx r) in
  res = Ok [("status", JStr "error"); ("error", JStr (exn_str e))] /\
  trace = [EvBefore 0; EvBefore 1; EvBefore 2; EvHandler; EvError 2; EvError 1] /\
  vals c !! "error_count" = Some (CNum 1) /\
  metrics c = Some (mk_metrics 1 0 1 []).
Proof.
  intros Ha. unfold execute, app_middleware, error_handling_mw, error_handling_before.
  rewrite Ha. vm_compute. repeat split.
Qed.

(** A payload whose [action] is missing or falsy fails the record with
    [ErrorHandlingMiddleware]'s [ValueError]: the handler and
    [MetricsMiddleware] never run, and only [CustomLoggingMiddleware]'s
    [error] hook is unwound, which does not suppress it. *)
Theorem custom_app_missing_action (p : payload) (ck : clock) (r : Batch.sqs_record)
    (h : app_ctx -> app_ctx * result dict py_exn) :
  truthy (py_get p "action") = false ->
  let '(c, trace, res) := execute (app_middleware p ck) h (start_ctx r) in
  res = Err (ValueError "Missing required field: action") /\
  trace = [EvBefore 0; EvBefore 1; EvError 0] /\
  metrics c = None /\
  vals c !! "error_count" = None.
Proof.
  intros Ha. unfold execute, app_middleware, error_handling_mw, error_handling_before.
  rewrite Ha. vm_compute. repeat split.
Qed.

(** When the handler succeeds with [v] (leaving the context alone), the
    [after] hooks run in reverse order, none of them replaces the result,
    [MetricsMiddleware]'s [after] finds the metrics and a numeric
    [start_time] (so it raises nothing), and the context ends with one
    message counted by the logging middleware, [error_count = 0] and
    metrics counting one message, one success and the duration between
    the two clock readings. *)
Theorem custom_app_success (p : payload) (ck : clock) (r : Batch.sqs_record) (v : dict) :
  truthy (py_get p "action") = true ->
  (exists c1 c2, (run_before 0 (app_middleware p ck) (start_ctx r)).1.1 = c1 /\
                 metrics_after_py ck c1 = Ok c2) /\
  let '(c, trace, res) := execute (app_middleware p ck) (fun c => (c, Ok v)) (start_ctx r) in
  res = Ok v /\
  trace = [EvBefore 0; EvBefore 1; EvBefore 2; EvHandler; EvAfter 2; EvAfter 1; EvAfter 0] /\
  vals c !! "message_count" = Some (CNum 1) /\
  vals c !! "error_count" = Some (CNum 0) /\
  metrics c = Some (mk_metrics 1 1 0 [(t_metrics_after ck - t_metrics_before ck)%Z]).
Proof.
  intros Ha. unfold execute, app_middleware, error_handling_mw, error_handling_before.
  rewrite Ha. split.
  - eexists _, _. split; [reflexivity|]. vm_compute. reflexivity.
  - vm_compute. repeat split.
Qed.

(** Over a batch of the custom middleware app (distinct record ids,
    handlers that leave the context alone), a record's id is in
    [failedIds] exactly when its payload has no truthy [action]: a
    raising handler does not put it there. *)
Theorem custom_app_failed_ids (payload_of : Batch.sqs_record -> payload)
    (ck : Batch.sqs_record -> clock) (out : Batch.sqs_record -> result dict py_exn)
    (records : list Batch.sqs_record) (r : Batch.sqs_record) :
  NoDup (map Batch.messageId records) -> r ∈ records ->
  (Batch.messageId r ∈ Batch.failed_ids
     (Batch.run_batch
        (fun r' => (execute (app_middleware (payload_of r') (ck r')) (fun c => (c, out r'))
                            (start_ctx r')).2) records)
   <-> truthy (py_get (payload_of r) "action") = false).
Proof.
  intros Hnd Hin.
  set (step := fun r' => (execute (app_middleware (payload_of r') (ck r'))
                            (fun c => (c, out r')) (start_ctx r')).2).
  destruct (BatchFacts.settle_all_inv step records Batch.empty_result BatchFacts.agg_inv_empty)
    as [_ Hmem].
  unfold Batch.run_batch, Batch.finalize.
  change (fun br r => Batch.record_outcome br (Batch.messageId r) (Batch.outcome_of (step r)))
    with (BatchFacts.settle step).
  rewrite Hmem, BatchFacts.settle_all_lookup by done.
  unfold step. rewrite custom_app_outcome.
  destruct (truthy (py_get (payload_of r) "action")), (out r); simpl; intuition congruence.
Qed.
End CustomAppFacts.

(* ================================================================== *)
(** * Concrete runs of the further properties *)

Module MoreExamples.
Import EntityLocks EntityLockMore EntityEvents.

(** An order and an account with the same id, then the order again. *)
Definition three_events : list entity_event :=
  [OrderEvent "123"; PaymentEvent "123"; OrderEvent "123"].

Lemma get_entity_lock_distinct_ids_witness :
  lock_map_wf (mk_heap ∅ 0) /\
  (run_calls (map lock_key three_events) (mk_heap ∅ 0)).2 = [Some 0; Some 1; Some 0] /\
  lock_map_wf (run_calls (map lock_key three_events) (mk_heap ∅ 0)).1.
Proof.
  split; [apply lock_map_wf_empty|]. split; [reflexivity|].
  exact (proj1 (get_entity_lock_distinct_ids (mk_heap ∅ 0) (map lock_key three_events)
                  (lock_map_wf_empty 0))).
Defined.

Lemma handler_locks_per_entity_witness :
  (0 = 1 <-> three_events !! 0 = three_events !! 1) /\
  (0 = 0 <-> three_events !! 0 = three_events !! 2).
Proof.
  split.
  - exact (handler_locks_per_entity (mk_heap ∅ 0) three_events (lock_map_wf_empty 0)
             0 1 0 1 eq_refl eq_refl).
  - exact (handler_locks_per_entity (mk_heap ∅ 0) three_events (lock_map_wf_empty 0)
             0 2 0 0 eq_refl eq_refl).
Defined.
End MoreExamples.

Module HandlerExamples.
Import Py Retry FailingHandlers FailingHandlerFacts.

Lemma process_order_retry_witness :
  (with_retry (comprehensive_retry false) (as_attempt (process_order "order-error")) (fun _ => 1%Q)).1.2
    = [1; 2; 4]%Q /\
  with_retry (comprehensive_retry false) (as_attempt (process_order "order-123")) (fun _ => 1%Q)
    = (1%nat, [], Ok [("order_id", JStr "order-123"); ("status", JStr "processed");
                     ("processed_at", JStr "2024-01-01T00:00:00Z")]).
Proof.
  split.
  - exact (proj2 (proj2 (proj1 (proj2 (process_order_retry false (fun _ => 1%Q) "order-error"))
                           (ex_intro _ "order-" eq_refl))) eq_refl).
  - apply (proj2 (proj2 (process_order_retry false (fun _ => 1%Q) "order-123"))).
    intros [p Hp]. apply (f_equal (fun s => endswith s "error")) in Hp.
    rewrite (proj2 (endswith_spec _ _) (ex_intro _ p eq_refl)) in Hp.
    vm_compute in Hp. discriminate.
Defined.

End HandlerExamples.

Module CustomAppExamples.
Import Pipeline Py CustomApp CustomAppFacts.

Definition login_payload : payload := {[ "action" := JStr "login"; "userId" := JStr "user123" ]}.
Definition no_action_payload : payload := {[ "userId" := JStr "user123" ]}.
Definition sample_clock : clock := mk_clock 100 101 103.
Definition msg1 : Batch.sqs_record := Batch.mk_record "msg-001" "login" ∅ None None.
Definition msg3 : Batch.sqs_record := Batch.mk_record "msg-003" "invalid" ∅ None None.

Lemma custom_app_handler_failure_witness :
  truthy (py_get login_payload "action") = true /\
  (execute (app_middleware login_payload sample_clock) handle_invalid_message (start_ctx msg3)).2
    = Ok [("status", JStr "error"); ("error", JStr "This is a test error")].
Proof.
  split; [reflexivity|].
  pose proof (custom_app_handler_failure login_payload sample_clock msg3
                (ValueError "This is a test error") eq_refl) as H.
  change handle_invalid_message with (fun c : app_ctx => (c, Err (A:=dict) (ValueError "This is a test error"))).
  destruct (execute _ _ _) as [[c tr] res]. exact (proj1 H).
Defined.

Lemma custom_app_missing_action_witness :
  truthy (py_get no_action_payload "action") = false /\
  (execute (app_middleware no_action_payload sample_clock) (handle_user_login no_action_payload)
     (start_ctx msg1)).2 = Err (ValueError "Missing required field: action").
Proof.
  split; [reflexivity|].
  pose proof (custom_app_missing_action no_action_payload sample_clock msg1
                (handle_user_login no_action_payload) eq_refl) as H.
  destruct (execute _ _ _) as [[c tr] res]. exact (proj1 H).
Defined.

Lemma custom_app_success_witness :
  truthy (py_get login_payload "action") = true /\
  metrics (execute (app_middleware login_payload sample_clock)
             (fun c => (c, Ok [("status", JStr "success")])) (start_ctx msg1)).1.1
    = Some (mk_metrics 1 1 0 [2%Z]).
Proof.
  split; [reflexivity|].
  pose proof (proj2 (custom_app_success login_payload sample_clock msg1
                       [("status", JStr "success")] eq_refl)) as H.
  vm_compute in H. vm_compute. destruct H as (_ & _ & _ & _ & H). exact H.
Defined.

Lemma custom_app_failed_ids_witness :
  NoDup (map Batch.messageId [msg1; msg3]) /\
  "msg-001" ∈ Batch.failed_ids
     (Batch.run_batch
        (fun r' => (execute (app_middleware (if String.eqb (Batch.messageId r') "msg-001"
                                             then no_action_payload else login_payload)
                               sample_clock)
                      (fun c => (c, Err (ValueError "This is a test error")))
                      (start_ctx r')).2) [msg1; msg3]).
Proof.
  assert (Hnd : NoDup (map Batch.messageId [msg1; msg3])).
  { apply (bool_decide_unpack _). vm_compute. reflexivity. }
  split; [exact Hnd|].
  apply (proj2 (custom_app_failed_ids
                  (fun r' => if String.eqb (Batch.messageId r') "msg-001"
                             then no_action_payload else login_payload)
                  (fun _ => sample_clock) (fun _ => Err (ValueError "This is a test error"))
                  [msg1; msg3] msg1 Hnd (list_elem_of_here _ _))).
  reflexivity.
Defined.
End CustomAppExamples.
